(** * fast_proxy_manager.data_manager: the indexed proxy pool

    A shallow embedding of [src/fast_proxy_manager/data_manager.py]
    ([_validate_protocol] and the class [DataManager]) together with
    the properties of the pool that the design document states.

    Conventions of the embedding.
    - A Python [int] is a [Z]; a list position handed to the manager may
      be negative, and list subscription follows Python (a negative
      position counts from the end).
    - A method of [DataManager] is a function from the manager's state to
      an [outcome]: it either returns a value or raises an exception, and
      in both cases the state reached is part of the outcome, since what a
      method mutated before it raised stays mutated.
    - [random.choice] takes its random draw as an explicit argument.
    - [percent_failed_to_remove] and the failure ratio are Python floats;
      they are exact rationals here.
    - The debug logger has no effect on the manager and is left out. *)

From stdpp Require Import gmap strings list fin_maps.
From Stdlib Require Import ZArith QArith Lia.

Open Scope Z_scope.

Set Warnings "-clear-no-such-hyp".

(** ** Data *)

(** A pool entry: the dict that [add_proxy] builds (lines 115-123). *)
Record Proxy := mkProxy {
  url : string;
  protocol : string;
  country : string;
  anonymity : string;
  times_failed : Z;
  times_succeed : Z;
  times_failed_in_row : Z
}.

#[global] Instance Proxy_eq_dec : EqDecision Proxy.
Proof. solve_decision. Defined.

(** What [proxy[key]] can hold. *)
Inductive value :=
| VStr (s : string)
| VInt (z : Z).

(** The exceptions of the module. [NoProxyAvailable] is the one class of
    [utils]; the others are Python's own. *)
Inductive exn :=
| ValueError (msg : string)
| IndexError (msg : string)
| KeyError (key : string)
| NoProxyAvailable (msg : string).

Definition is_NoProxyAvailable (e : exn) : bool :=
  match e with NoProxyAvailable _ => true | _ => false end.

Definition is_ValueError (e : exn) : bool :=
  match e with ValueError _ => true | _ => false end.

(** A filter argument of type [list[str] | str | None]. *)
Inductive str_arg :=
| ArgNone
| ArgStr (s : string)
| ArgList (l : list string).

(** Python truthiness of such an argument ([if protocol:]). *)
Definition truthy (a : str_arg) : bool :=
  match a with
  | ArgNone => false
  | ArgStr s => negb (String.eqb s "")
  | ArgList l => match l with [] => false | _ => true end
  end.

(** [[a] if isinstance(a, str) else a] *)
Definition as_list (a : str_arg) : list string :=
  match a with
  | ArgNone => []
  | ArgStr s => [s]
  | ArgList l => l
  end.

(** ** [_validate_protocol] (lines 12-20) *)

Definition known_protocols : list string := ["http"; "https"; "socks4"; "socks5"].

Definition known_protocol (p : string) : bool := bool_decide (p ∈ known_protocols).

Definition _validate_protocol (protocols : str_arg) : exn + option (list string) :=
  match protocols with
  | ArgNone => inr None
  | _ =>
      let protocols := as_list protocols in
      match List.find (fun p => negb (known_protocol p)) protocols with
      | Some invalid_protocol =>
          inl (ValueError ("You can't use this protocol: " ++ invalid_protocol))
      | None => inr (Some protocols)
      end
  end.

(** ** Python list subscription *)

(** The position that [l[i]] reads, [None] where Python raises
    [IndexError]. *)
Definition py_pos {A} (l : list A) (i : Z) : option nat :=
  let n := Z.of_nat (length l) in
  if (0 <=? i) && (i <? n) then Some (Z.to_nat i)
  else if (- n <=? i) && (i <? 0) then Some (Z.to_nat (n + i))
  else None.

(** ** The secondary index *)

(** Modelled from the spec: the class [ProxyIndex] of [utils] is not among
    the sources. Following section 4.1, it holds one map per indexed
    attribute from an attribute value to the set of list positions with
    that value; a value without a bucket stands for the empty set;
    [rebuild] clears and repopulates the three maps in one pass, [add]
    puts one position into the three buckets of a record, [remove] takes
    it out of them, [clear] empties the maps. *)
Record ProxyIndex := mkIndex {
  protocol_index : gmap string (gset Z);
  country_index : gmap string (gset Z);
  anonymity_index : gmap string (gset Z)
}.

#[global] Instance ProxyIndex_eq_dec : EqDecision ProxyIndex.
Proof. solve_decision. Defined.

Definition bucket (m : gmap string (gset Z)) (k : string) : gset Z :=
  default ∅ (m !! k).

Definition bucket_add (i : Z) (k : string) (m : gmap string (gset Z))
  : gmap string (gset Z) :=
  <[k := {[i]} ∪ bucket m k]> m.

Definition bucket_remove (i : Z) (k : string) (m : gmap string (gset Z))
  : gmap string (gset Z) :=
  match m !! k with
  | Some s => <[k := s ∖ {[i]}]> m
  | None => m
  end.

Definition index_clear : ProxyIndex := mkIndex ∅ ∅ ∅.

Definition index_add_proxy (i : Z) (p : Proxy) (idx : ProxyIndex) : ProxyIndex :=
  mkIndex (bucket_add i (protocol p) (protocol_index idx))
          (bucket_add i (country p) (country_index idx))
          (bucket_add i (anonymity p) (anonymity_index idx)).

Definition index_remove_proxy (i : Z) (p : Proxy) (idx : ProxyIndex) : ProxyIndex :=
  mkIndex (bucket_remove i (protocol p) (protocol_index idx))
          (bucket_remove i (country p) (country_index idx))
          (bucket_remove i (anonymity p) (anonymity_index idx)).

(** [for i, proxy in enumerate(l, start=i): index.add_proxy(i, proxy)] *)
Fixpoint index_add_from (i : Z) (l : list Proxy) (idx : ProxyIndex) : ProxyIndex :=
  match l with
  | [] => idx
  | p :: l' => index_add_from (i + 1) l' (index_add_proxy i p idx)
  end.

Definition rebuild_index (l : list Proxy) : ProxyIndex :=
  index_add_from 0 l index_clear.

(** ** The manager's state *)

(** [msgpack] is [None] when the manager has no store file, and otherwise
    holds what the file contains. *)
Record DataManager := mkDM {
  allowed_fails_in_row : Z;
  fails_without_check : Z;
  percent_failed_to_remove : Q;
  min_proxies : Z;
  msgpack : option (list Proxy);
  proxies : list Proxy;
  last_proxy_index : option Z;
  index : ProxyIndex
}.

Definition with_proxies (l : list Proxy) (st : DataManager) : DataManager :=
  mkDM (allowed_fails_in_row st) (fails_without_check st)
       (percent_failed_to_remove st) (min_proxies st) (msgpack st)
       l (last_proxy_index st) (index st).

Definition with_index (idx : ProxyIndex) (st : DataManager) : DataManager :=
  mkDM (allowed_fails_in_row st) (fails_without_check st)
       (percent_failed_to_remove st) (min_proxies st) (msgpack st)
       (proxies st) (last_proxy_index st) idx.

Definition with_last (o : option Z) (st : DataManager) : DataManager :=
  mkDM (allowed_fails_in_row st) (fails_without_check st)
       (percent_failed_to_remove st) (min_proxies st) (msgpack st)
       (proxies st) o (index st).

Definition with_msgpack (f : option (list Proxy)) (st : DataManager) : DataManager :=
  mkDM (allowed_fails_in_row st) (fails_without_check st)
       (percent_failed_to_remove st) (min_proxies st) f
       (proxies st) (last_proxy_index st) (index st).

(** [len(self.proxies)] *)
Definition len (st : DataManager) : Z := Z.of_nat (length (proxies st)).

(** The result of a method call. *)
Inductive outcome (A : Type) :=
| Return (a : A) (st : DataManager)
| Raise (e : exn) (st : DataManager).
Arguments Return {A} a st.
Arguments Raise {A} e st.

Definition state_of {A} (o : outcome A) : DataManager :=
  match o with Return _ st => st | Raise _ st => st end.

Definition bind {A B} (o : outcome A) (k : A -> DataManager -> outcome B) : outcome B :=
  match o with
  | Return a st => k a st
  | Raise e st => Raise e st
  end.

(** ** The methods of [DataManager] *)

(** [self.msgpack and write_msgpack(self.msgpack, self.proxies)] *)
Definition _write_data (st : DataManager) : DataManager :=
  match msgpack st with
  | Some _ => with_msgpack (Some (proxies st)) st
  | None => st
  end.

(** The comprehension of [_rm_duplicate_proxies] over an already reversed
    list: a record is kept when its url is not in [seen_urls], and its url
    is then added to [seen_urls]. *)
Fixpoint keep_unseen (seen_urls : gset string) (l : list Proxy) : list Proxy :=
  match l with
  | [] => []
  | proxy :: l' =>
      if decide (url proxy ∈ seen_urls) then keep_unseen seen_urls l'
      else proxy :: keep_unseen ({[url proxy]} ∪ seen_urls) l'
  end.

Definition _rm_duplicate_proxies (st : DataManager) : DataManager :=
  let new_proxies := keep_unseen ∅ (reverse (proxies st)) in
  with_index (rebuild_index new_proxies) (with_proxies new_proxies st).

Definition update_data (remove_duplicates : bool) (st : DataManager) : DataManager :=
  _write_data (if remove_duplicates then _rm_duplicate_proxies st else st).

Definition rm_proxy (idx : Z) (st : DataManager) : outcome unit :=
  if (0 <=? idx) && (idx <? len st) then
    match proxies st !! Z.to_nat idx with
    | Some proxy =>
        let st := with_index (index_remove_proxy idx proxy (index st)) st in
        let st := with_proxies (delete (Z.to_nat idx) (proxies st)) st in
        let st := with_index (rebuild_index (proxies st)) st in
        let st :=
          match last_proxy_index st with
          | Some last => if idx <? last then with_last (Some (last - 1)) st else st
          | None => st
          end in
        Return tt (_write_data st)
    | None => Raise (IndexError "list index out of range") st
    end
  else Raise (IndexError "Proxy does not exist") st.

Definition force_rm_last_proxy (st : DataManager) : outcome unit :=
  match last_proxy_index st with
  | Some last => rm_proxy last st
  | None => Return tt st
  end.

Definition rm_all_proxies (st : DataManager) : outcome unit :=
  Return tt (_write_data (with_index index_clear (with_proxies [] st))).

(** The two branches of [feedback_proxy] on the selected dict. *)
Definition record_success (proxy : Proxy) : Proxy :=
  mkProxy (url proxy) (protocol proxy) (country proxy) (anonymity proxy)
          (times_failed proxy) (times_succeed proxy + 1) 0.

Definition record_failure (proxy : Proxy) : Proxy :=
  mkProxy (url proxy) (protocol proxy) (country proxy) (anonymity proxy)
          (times_failed proxy + 1) (times_succeed proxy)
          (times_failed_in_row proxy + 1).

(** Lines 94-95, on the dict after its counters were incremented. *)
Definition failed_ratio (proxy : Proxy) : Q :=
  let total_attempts := times_failed proxy + times_succeed proxy in
  if 0 <? total_attempts
  then Qmake (times_failed proxy) (Z.to_pos total_attempts)
  else 0%Q.

(** Lines 97-100. *)
Definition should_remove (st : DataManager) (proxy : Proxy) : bool :=
  (allowed_fails_in_row st <? times_failed_in_row proxy)
  || ((fails_without_check st <? times_failed proxy)
      && negb (Qle_bool (failed_ratio proxy) (percent_failed_to_remove st))).

(** Lines 82-108. The dict [proxy] is the list's own element, so its
    update is an update of the list in place. [should_remove] decides
    nothing but the debug message of lines 102-106; the call of line 107
    stands after that [if], at the level of the [else] branch. *)
Definition feedback_proxy (success : bool) (st : DataManager) : outcome unit :=
  match last_proxy_index st with
  | None => Return tt st
  | Some last =>
      if len st <=? last then Return tt st
      else
        match py_pos (proxies st) last with
        | None => Raise (IndexError "list index out of range") st
        | Some n =>
            match proxies st !! n with
            | None => Raise (IndexError "list index out of range") st
            | Some proxy =>
                if success then
                  let st := with_proxies (<[n := record_success proxy]> (proxies st)) st in
                  Return tt (_write_data st)
                else
                  let proxy := record_failure proxy in
                  let st := with_proxies (<[n := proxy]> (proxies st)) st in
                  let _logged := should_remove st proxy in
                  bind (rm_proxy last st) (fun _ st => Return tt (_write_data st))
            end
        end
  end.

(** *** Ingestion *)

(** What [add_proxy] uses of a parsed [URL]: [repr(url)] and
    [url.protocol]. *)
Record ParsedURL := mkURL {
  url_repr : string;
  url_protocol : string
}.

Section Ingestion.

(** The class [URL] of [utils] is not among the sources; its constructor
    is a parameter: it parses a string or raises. *)
Variable URL : string -> exn + ParsedURL.

(** The body of the loop of lines 113-125 for one candidate dict. *)
Definition new_proxy (proxy : gmap string string) : exn + Proxy :=
  match proxy !! "url" with
  | None => inl (KeyError "url")
  | Some s =>
      match URL s with
      | inl e => inl e
      | inr u =>
          inr (mkProxy (url_repr u) (url_protocol u)
                       (default "unknown" (proxy !! "country"))
                       (default "unknown" (proxy !! "anonymity"))
                       0 0 0)
      end
  end.

Fixpoint build_new_proxies (l : list (gmap string string)) : exn + list Proxy :=
  match l with
  | [] => inr []
  | proxy :: l' =>
      match new_proxy proxy with
      | inl e => inl e
      | inr p =>
          match build_new_proxies l' with
          | inl e => inl e
          | inr ps => inr (p :: ps)
          end
      end
  end.

Definition add_proxy (candidates : list (gmap string string)) (st : DataManager)
  : outcome unit :=
  let start_index := len st in
  match build_new_proxies candidates with
  | inl e => Raise e st
  | inr new_proxies =>
      let st := with_proxies (proxies st ++ new_proxies) st in
      let st := with_index (index_add_from start_index new_proxies (index st)) st in
      Return tt (update_data true st)
  end.

(** How a new record relates to the candidate it was built from. *)
Definition built_from (c : gmap string string) (p : Proxy) : Prop :=
  ∃ s u, c !! "url" = Some s ∧ URL s = inr u
    ∧ url p = url_repr u ∧ protocol p = url_protocol u.

End Ingestion.

(** *** Selection *)

(** [proxy[key]], [None] where Python raises [KeyError]. *)
Definition getitem (proxy : Proxy) (key : string) : option value :=
  if String.eqb key "url" then Some (VStr (url proxy))
  else if String.eqb key "protocol" then Some (VStr (protocol proxy))
  else if String.eqb key "country" then Some (VStr (country proxy))
  else if String.eqb key "anonymity" then Some (VStr (anonymity proxy))
  else if String.eqb key "times_failed" then Some (VInt (times_failed proxy))
  else if String.eqb key "times_succeed" then Some (VInt (times_succeed proxy))
  else if String.eqb key "times_failed_in_row" then Some (VInt (times_failed_in_row proxy))
  else None.

(** The union of the buckets [m[v]] for [v] in [values]. *)
Definition union_buckets (m : gmap string (gset Z)) (values : list string) : gset Z :=
  ⋃ (bucket m <$> values).

(** One include filter: [if a: valid_indices &= ...]. *)
Definition include (a : str_arg) (m : gmap string (gset Z)) (valid_indices : gset Z)
  : gset Z :=
  if truthy a then valid_indices ∩ union_buckets m (as_list a) else valid_indices.

(** One exclude filter: [if a: valid_indices -= ...]. *)
Definition exclude (a : str_arg) (m : gmap string (gset Z)) (valid_indices : gset Z)
  : gset Z :=
  if truthy a then valid_indices ∖ union_buckets m (as_list a) else valid_indices.

(** [set(range(n))] *)
Definition range_set (n : nat) : gset Z := list_to_set (Z.of_nat <$> seq 0 n).

(** Lines 169-201: [valid_indices] when line 203 is reached. *)
Definition filtered_indices
    (protocol_ country_ anonymity_ exclude_protocol exclude_country exclude_anonymity : str_arg)
    (st : DataManager) : gset Z :=
  let valid_indices := range_set (length (proxies st)) in
  let valid_indices := include protocol_ (protocol_index (index st)) valid_indices in
  let valid_indices := include country_ (country_index (index st)) valid_indices in
  let valid_indices := include anonymity_ (anonymity_index (index st)) valid_indices in
  let valid_indices := exclude exclude_protocol (protocol_index (index st)) valid_indices in
  let valid_indices := exclude exclude_country (country_index (index st)) valid_indices in
  exclude exclude_anonymity (anonymity_index (index st)) valid_indices.

(** Lines 207-212. *)
Definition avoid_last (last : option Z) (valid_indices : gset Z) : gset Z :=
  match last with
  | Some i =>
      if bool_decide (i ∈ valid_indices) && (1 <? Z.of_nat (size valid_indices))
      then valid_indices ∖ {[i]}
      else valid_indices
  | None => valid_indices
  end.

(** [random.choice(l)] with the draw [rnd]; [None] on an empty list,
    where Python raises [IndexError]. *)
Definition choice {A} (rnd : nat) (l : list A) : option A :=
  l !! (rnd `mod` length l)%nat.

(** Line 166. *)
Definition not_enough (st : DataManager) : bool :=
  negb (min_proxies st =? 0) && (len st <? min_proxies st).

Definition get_proxy (return_type : string)
    (protocol_ country_ anonymity_ exclude_protocol exclude_country exclude_anonymity : str_arg)
    (rnd : nat) (st : DataManager) : outcome value :=
  if not_enough st then
    Raise (NoProxyAvailable "Not enough proxies available. Fetch more proxies.") st
  else
    let valid_indices :=
      filtered_indices protocol_ country_ anonymity_
                       exclude_protocol exclude_country exclude_anonymity st in
    if bool_decide (valid_indices = ∅) then
      Raise (NoProxyAvailable "No proxy found with the given parameters.") st
    else
      let valid_indices := avoid_last (last_proxy_index st) valid_indices in
      match choice rnd (elements valid_indices) with
      | None => Raise (IndexError "Cannot choose from an empty sequence") st
      | Some selected_index =>
          let st := with_last (Some selected_index) st in
          match py_pos (proxies st) selected_index with
          | None => Raise (IndexError "list index out of range") st
          | Some n =>
              match proxies st !! n with
              | None => Raise (IndexError "list index out of range") st
              | Some proxy =>
                  match getitem proxy return_type with
                  | None => Raise (KeyError return_type) st
                  | Some chosen_proxy => Return chosen_proxy st
                  end
              end
          end
      end.

(** ** What the properties speak of *)

(** What an in-range [rm_proxy] leaves behind. *)
Definition after_rm (idx : Z) (st : DataManager) : DataManager :=
  let l := delete (Z.to_nat idx) (proxies st) in
  mkDM (allowed_fails_in_row st) (fails_without_check st)
       (percent_failed_to_remove st) (min_proxies st)
       (match msgpack st with Some _ => Some l | None => None end)
       l
       (match last_proxy_index st with
        | Some last => Some (if idx <? last then last - 1 else last)
        | None => None
        end)
       (rebuild_index l).

(** The three indexed attributes. *)
Inductive attribute :=
| Protocol
| Country
| Anonymity.

Definition attr_of (a : attribute) (p : Proxy) : string :=
  match a with
  | Protocol => protocol p
  | Country => country p
  | Anonymity => anonymity p
  end.

Definition index_of (a : attribute) (idx : ProxyIndex) : gmap string (gset Z) :=
  match a with
  | Protocol => protocol_index idx
  | Country => country_index idx
  | Anonymity => anonymity_index idx
  end.

(** What the filters ask of a record, read off the record itself: an
    include filter that was given holds when the attribute value is among
    the requested ones, an exclude filter that was given hits when it is. *)
Definition included (a : str_arg) (v : string) : bool :=
  negb (truthy a) || bool_decide (v ∈ as_list a).

Definition excluded (a : str_arg) (v : string) : bool :=
  truthy a && bool_decide (v ∈ as_list a).

Definition matches
    (protocol_ country_ anonymity_ exclude_protocol exclude_country exclude_anonymity : str_arg)
    (p : Proxy) : bool :=
  included protocol_ (protocol p)
  && included country_ (country p)
  && included anonymity_ (anonymity p)
  && negb (excluded exclude_protocol (protocol p))
  && negb (excluded exclude_country (country p))
  && negb (excluded exclude_anonymity (anonymity p)).

(** Position [j] of the list [l] holds the record [p]. *)
Definition at_pos (l : list Proxy) (j : Z) (p : Proxy) : Prop :=
  0 ≤ j ∧ l !! Z.to_nat j = Some p.

(** What the selection theorems assume of a state: the index is the one
    rebuilt from the list, and no url stands twice in the list. Every
    method keeps it, and [add_proxy] establishes it. *)
Definition pool_ok (st : DataManager) : Prop :=
  index st = rebuild_index (proxies st) ∧ NoDup (url <$> proxies st).

Definition same_attributes (p q : Proxy) : Prop :=
  url p = url q ∧ protocol p = protocol q
  ∧ country p = country q ∧ anonymity p = anonymity q.

(** The remembered position, when there is one, is not negative. *)
Definition last_ok (st : DataManager) : Prop :=
  match last_proxy_index st with
  | Some last => 0 ≤ last
  | None => True
  end.

(** The store file, when there is one, holds the pool as it is. *)
Definition store_synced (st : DataManager) : Prop :=
  match msgpack st with
  | Some stored => stored = proxies st
  | None => True
  end.

(** The keys of a pool entry. *)
Definition proxy_keys : list string :=
  ["url"; "protocol"; "country"; "anonymity";
   "times_failed"; "times_succeed"; "times_failed_in_row"].

(** One call of a public method: the state it starts from and the state
    it leaves, whether it returned or raised. *)
Inductive step (URL : string -> exn + ParsedURL) : DataManager -> DataManager -> Prop :=
| step_add_proxy candidates st :
    step URL st (state_of (add_proxy URL candidates st))
| step_rm_proxy idx st :
    step URL st (state_of (rm_proxy idx st))
| step_rm_all_proxies st :
    step URL st (state_of (rm_all_proxies st))
| step_force_rm_last_proxy st :
    step URL st (state_of (force_rm_last_proxy st))
| step_feedback_proxy success st :
    step URL st (state_of (feedback_proxy success st))
| step_update_data remove_duplicates st :
    step URL st (update_data remove_duplicates st)
| step_get_proxy return_type protocol_ country_ anonymity_
                 exclude_protocol exclude_country exclude_anonymity rnd st :
    step URL st
         (state_of (get_proxy return_type protocol_ country_ anonymity_
                      exclude_protocol exclude_country exclude_anonymity rnd st)).

(** ** Sample data *)

(** A stand-in for the constructor of [URL], to run [add_proxy] on
    examples: the protocol is the text before ["://"], [repr] gives the
    string back, and a string without ["://"] is refused. *)
Definition sample_URL (s : string) : exn + ParsedURL :=
  match String.index 0 "://" s with
  | Some n => inr (mkURL s (String.substring 0 n s))
  | None => inl (ValueError ("Invalid URL: " ++ s))
  end.

(** A manager as [__init__] leaves it with the default thresholds, no
    store file and the given pool. *)
Definition init (l : list Proxy) : DataManager :=
  mkDM 2 2 (1 # 2) 0 None l None (rebuild_index l).

Definition pA : Proxy := mkProxy "http://10.0.0.1:80" "http" "US" "unknown" 0 0 0.
Definition pB : Proxy := mkProxy "https://10.0.0.2:443" "https" "DE" "unknown" 0 0 0.
Definition pC : Proxy := mkProxy "http://10.0.0.3:80" "http" "US" "unknown" 0 0 0.

(** The record that [sample_URL] yields for the second url when it comes
    without country and anonymity. *)
Definition pB_new : Proxy :=
  mkProxy "https://10.0.0.2:443" "https" "unknown" "unknown" 0 0 0.

(** A manager that wants at least two proxies and holds one. *)
Definition short_pool : DataManager :=
  mkDM 2 2 (1 # 2) 2 None [pA] None (rebuild_index [pA]).

(** A pool of https records only. *)
Definition https_pool : DataManager :=
  init [pB; mkProxy "https://10.0.0.4:443" "https" "FR" "elite" 0 0 0].

(** A candidate with a valid url and an explicit protocol that is not one
    of the four. *)
Definition ftp_candidate : gmap string string :=
  {[ "url" := "http://10.0.0.1:80"; "protocol" := "ftp" ]}.

(** The pool of the example: [pA] selected, then one new url ingested. *)
Definition after_sample_add : DataManager :=
  state_of (add_proxy sample_URL [ {[ "url" := "https://10.0.0.2:443" ]} ]
                      (with_last (Some 0) (init [pA]))).

(** A manager with a store file that holds its pool, [pB] selected. *)
Definition stored_pool : DataManager :=
  mkDM 2 2 (1 # 2) 0 (Some [pA; pB; pC]) [pA; pB; pC] (Some 1)
       (rebuild_index [pA; pB; pC]).

(** * Properties *)

Example sample_select :
  get_proxy "url" (ArgStr "http") ArgNone ArgNone ArgNone ArgNone ArgNone 0
            (with_last (Some 0) (init [pA; pB; pC]))
  = Return (VStr "http://10.0.0.3:80") (with_last (Some 2) (init [pA; pB; pC])).
Proof. vm_compute. reflexivity. Qed.

Example sample_add :
  proxies (state_of (add_proxy sample_URL
     [ {[ "url" := "http://10.0.0.1:80" ]}; {[ "url" := "socks5://10.0.0.9:1080" ]} ]
     (init [pA; pB])))
  = [ mkProxy "socks5://10.0.0.9:1080" "socks5" "unknown" "unknown" 0 0 0;
      mkProxy "http://10.0.0.1:80" "http" "unknown" "unknown" 0 0 0;
      pB ].
Proof. vm_compute. reflexivity. Qed.

(** ** Removal *)

Lemma len_with_last o st : len (with_last o st) = len st.
Proof. reflexivity. Qed.

Lemma lookup_in_range (l : list Proxy) (i : Z) :
  0 ≤ i < Z.of_nat (length l) → is_Some (l !! Z.to_nat i).
Proof. intros H. apply lookup_lt_is_Some. lia. Qed.

Lemma py_pos_in_range (l : list Proxy) (i : Z) :
  0 ≤ i < Z.of_nat (length l) → py_pos l i = Some (Z.to_nat i).
Proof.
  intros H. unfold py_pos.
  destruct (Z.leb_spec 0 i); [|lia].
  destruct (Z.ltb_spec i (Z.of_nat (length l))); [reflexivity|lia].
Qed.

Lemma rm_proxy_in_range (idx : Z) (st : DataManager) :
  0 ≤ idx < len st → rm_proxy idx st = Return tt (after_rm idx st).
Proof.
  intros H. unfold rm_proxy.
  destruct (Z.leb_spec 0 idx); [|lia].
  destruct (Z.ltb_spec idx (len st)); [|lia]. simpl.
  destruct (lookup_in_range (proxies st) idx H) as [p ->].
  destruct st as [a f r m mp l [last|] ix]; unfold after_rm; simpl.
  - destruct (idx <? last); destruct mp; reflexivity.
  - destruct mp; reflexivity.
Qed.

Lemma rm_proxy_out_of_range (idx : Z) (st : DataManager) :
  ¬ (0 ≤ idx < len st) →
  rm_proxy idx st = Raise (IndexError "Proxy does not exist") st.
Proof.
  intros H. unfold rm_proxy.
  destruct (Z.leb_spec 0 idx); destruct (Z.ltb_spec idx (len st));
    simpl; try reflexivity.
  lia.
Qed.

Lemma length_delete_in_range (l : list Proxy) (n : nat) :
  (n < length l)%nat → length (delete n l) = (length l - 1)%nat.
Proof.
  intros H. pose proof (length_delete l n (lookup_lt_is_Some_2 l n H)). lia.
Qed.

(** C7. [rm_proxy] at a position outside [0, len) raises [IndexError]
    ("Proxy does not exist", the design's NotFoundError) and leaves the
    whole state, hence the record list, the index and the remembered last
    selection, as it was. At a position inside the range it returns, the
    record at that position is deleted from the list, the index is the
    one rebuilt from the new list, the remembered last selection is
    decremented when it was after the removed position and kept
    otherwise, and the new list is written to the store file when there
    is one. *)
Theorem rm_proxy_bounds_checked (idx : Z) (st : DataManager) :
  (¬ (0 ≤ idx < len st) →
     rm_proxy idx st = Raise (IndexError "Proxy does not exist") st)
  ∧ (0 ≤ idx < len st →
     ∃ st', rm_proxy idx st = Return tt st'
       ∧ proxies st' = delete (Z.to_nat idx) (proxies st)
       ∧ len st' = len st - 1
       ∧ index st' = rebuild_index (proxies st')
       ∧ last_proxy_index st' =
           match last_proxy_index st with
           | Some last => Some (if idx <? last then last - 1 else last)
           | None => None
           end
       ∧ msgpack st' =
           match msgpack st with
           | Some _ => Some (proxies st')
           | None => None
           end).
Proof.
  split.
  - apply rm_proxy_out_of_range.
  - intros H. exists (after_rm idx st).
    split; [by apply rm_proxy_in_range|].
    repeat split; try reflexivity.
    unfold len, after_rm; simpl.
    rewrite length_delete_in_range; unfold len in H; lia.
Qed.

Lemma rm_proxy_bounds_checked_witness :
  rm_proxy (-1) (with_last (Some 2) (init [pA; pB; pC]))
    = Raise (IndexError "Proxy does not exist") (with_last (Some 2) (init [pA; pB; pC]))
  ∧ rm_proxy 3 (with_last (Some 2) (init [pA; pB; pC]))
    = Raise (IndexError "Proxy does not exist") (with_last (Some 2) (init [pA; pB; pC]))
  ∧ ∃ st', rm_proxy 1 (with_last (Some 2) (init [pA; pB; pC])) = Return tt st'
       ∧ proxies st' = [pA; pC] ∧ last_proxy_index st' = Some 1.
Proof.
  split; [|split].
  - apply (rm_proxy_bounds_checked (-1)). unfold len; simpl; lia.
  - apply (rm_proxy_bounds_checked 3). unfold len; simpl; lia.
  - destruct (rm_proxy_bounds_checked 1 (with_last (Some 2) (init [pA; pB; pC])))
      as [_ H].
    destruct H as (st' & Hr & Hp & _ & _ & Hl & _); [unfold len; simpl; lia|].
    exists st'. split; [exact Hr|]. split; [exact Hp | exact Hl].
Defined.

(** ** Feedback *)

Lemma delete_insert_same (l : list Proxy) (n : nat) (x : Proxy) :
  delete n (<[n := x]> l) = delete n l.
Proof.
  revert n. induction l as [|y l IH]; intros [|n]; simpl; try reflexivity.
  f_equal. apply IH.
Qed.

(** A failure reported for a selection that is in range: the counters of
    the selected dict are incremented, and [rm_proxy] is then called on
    the selection whatever the thresholds say. *)
Lemma feedback_failure_in_range (st : DataManager) (last : Z) :
  last_proxy_index st = Some last →
  0 ≤ last < len st →
  ∃ st', feedback_proxy false st = Return tt st'
    ∧ proxies st' = delete (Z.to_nat last) (proxies st)
    ∧ last_proxy_index st' = Some last
    ∧ index st' = rebuild_index (proxies st').
Proof.
  intros Hl Hr. unfold feedback_proxy. rewrite Hl.
  destruct (Z.leb_spec (len st) last); [lia|].
  rewrite py_pos_in_range by exact Hr.
  destruct (lookup_in_range (proxies st) last Hr) as [p ->].
  cbv zeta.
  set (st1 := with_proxies _ st).
  assert (Hr1 : 0 ≤ last < len st1).
  { unfold len, st1; simpl. rewrite length_insert. exact Hr. }
  rewrite (rm_proxy_in_range last st1 Hr1). simpl.
  eexists. split; [reflexivity|].
  unfold _write_data, after_rm, st1; simpl.
  rewrite Hl, Z.ltb_irrefl, delete_insert_same.
  destruct (msgpack st); simpl; repeat split; reflexivity.
Qed.

(** C8. When there is no last selection, or the remembered position is
    not less than the length of the pool, [feedback_proxy] (for a success
    as for a failure) returns without raising and the manager's state is
    the one before the call: no record, no index bucket and no remembered
    position has changed, and nothing was written. *)
Theorem feedback_proxy_stale_noop (success : bool) (st : DataManager) :
  (last_proxy_index st = None
   ∨ ∃ last, last_proxy_index st = Some last ∧ len st ≤ last) →
  feedback_proxy success st = Return tt st.
Proof.
  intros [H | (last & H & Hge)]; unfold feedback_proxy; rewrite H.
  - reflexivity.
  - destruct (Z.leb_spec (len st) last); [reflexivity | lia].
Qed.

Lemma feedback_proxy_stale_noop_witness :
  feedback_proxy false (with_last (Some 10) (init [pA; pB; pC]))
    = Return tt (with_last (Some 10) (init [pA; pB; pC]))
  ∧ feedback_proxy true (init []) = Return tt (init []).
Proof.
  split.
  - apply feedback_proxy_stale_noop. right. exists 10.
    split; [reflexivity | unfold len; simpl; lia].
  - apply feedback_proxy_stale_noop. left. reflexivity.
Defined.

(** C1. One failure reported for a fresh record under the default
    thresholds (2 fails in a row allowed, ratio checked after 2 fails):
    after the increment both counters are 1, so neither eviction
    condition holds and [should_remove] is false; the code removes the
    record all the same and the pool is empty afterwards. *)
Theorem feedback_failure_evicts_below_thresholds :
  let st := with_last (Some 0) (init [pA]) in
  let proxy := record_failure pA in
  times_failed_in_row proxy = 1
  ∧ times_failed proxy = 1
  ∧ should_remove st proxy = false
  ∧ feedback_proxy false st = Return tt (with_last (Some 0) (init []))
  ∧ len (state_of (feedback_proxy false st)) = len st - 1.
Proof. vm_compute. repeat split; reflexivity. Qed.

(** ** The minimum pool size *)

(** C2, as the code has it. When [min_proxies] is positive and the pool
    is shorter, [get_proxy] raises before any filtering, whatever the
    filters and the random draw are, and leaves the state unchanged; the
    exception is a [NoProxyAvailable], the class that also reports an
    empty filter result, with a message of its own. *)
Theorem get_proxy_below_minimum (return_type : string)
    (protocol_ country_ anonymity_ exclude_protocol exclude_country exclude_anonymity : str_arg)
    (rnd : nat) (st : DataManager) :
  0 < min_proxies st →
  len st < min_proxies st →
  get_proxy return_type protocol_ country_ anonymity_
            exclude_protocol exclude_country exclude_anonymity rnd st
  = Raise (NoProxyAvailable "Not enough proxies available. Fetch more proxies.") st.
Proof.
  intros Hm Hl. unfold get_proxy, not_enough.
  destruct (Z.eqb_spec (min_proxies st) 0); [lia|].
  destruct (Z.ltb_spec (len st) (min_proxies st)); [reflexivity | lia].
Qed.

Lemma get_proxy_below_minimum_witness :
  get_proxy "url" ArgNone ArgNone ArgNone ArgNone ArgNone ArgNone 0 short_pool
  = Raise (NoProxyAvailable "Not enough proxies available. Fetch more proxies.") short_pool.
Proof.
  apply get_proxy_below_minimum; unfold len; simpl; lia.
Defined.

(** C2, as the design states it, fails: on [short_pool] the exception
    raised is not distinct from [NoProxyAvailable]. *)
Lemma insufficient_pool_not_distinct :
  0 < min_proxies short_pool
  ∧ len short_pool < min_proxies short_pool
  ∧ ¬ ∃ e, get_proxy "url" ArgNone ArgNone ArgNone ArgNone ArgNone ArgNone 0 short_pool
           = Raise e short_pool
         ∧ is_NoProxyAvailable e = false.
Proof.
  split; [reflexivity|]. split; [reflexivity|].
  intros (e & He & Hd). vm_compute in He.
  injection He as <-. discriminate Hd.
Qed.

(** ** The remembered selection across a removal *)

Lemma lookup_after_delete_self (l : list Proxy) (n : nat) :
  delete n l !! n = l !! S n.
Proof. apply list_lookup_delete_ge. lia. Qed.

Lemma NoDup_successor_differs (l : list Proxy) (n : nat) :
  NoDup l → (n < length l)%nat → l !! S n ≠ l !! n.
Proof.
  intros Hnd Hn Heq.
  destruct (lookup_lt_is_Some_2 l n Hn) as [x Hx].
  rewrite Hx in Heq.
  pose proof (NoDup_lookup l (S n) n x Hnd Heq Hx). lia.
Qed.

(** C10. For a removal at an in-range position [idx], the remembered
    last-selection position is decremented exactly when [idx] is strictly
    below it. When [idx] is the remembered position itself, the position
    keeps its numeric value: afterwards it either equals the new pool
    length (nothing is stored there) or points at the record that used to
    follow the removed one, which in a pool without repeated records is
    not the record it pointed at before. [force_rm_last_proxy] and a
    failure reported through [feedback_proxy] remove the remembered
    position in this way and leave it numerically unchanged. *)
Theorem rm_proxy_keeps_own_position (idx : Z) (st : DataManager) :
  0 ≤ idx < len st →
  let st' := state_of (rm_proxy idx st) in
  (∀ last, last_proxy_index st = Some last →
     last_proxy_index st' = Some (if idx <? last then last - 1 else last)
     ∧ (last_proxy_index st' = Some (last - 1) ↔ idx < last))
  ∧ (last_proxy_index st = Some idx →
       last_proxy_index st' = Some idx
       ∧ proxies st' !! Z.to_nat idx = proxies st !! S (Z.to_nat idx)
       ∧ (idx = len st' ∨ (idx < len st' ∧ is_Some (proxies st' !! Z.to_nat idx)))
       ∧ (NoDup (proxies st) →
            proxies st' !! Z.to_nat idx ≠ proxies st !! Z.to_nat idx)
       ∧ force_rm_last_proxy st = rm_proxy idx st
       ∧ last_proxy_index (state_of (feedback_proxy false st)) = Some idx
       ∧ len (state_of (feedback_proxy false st)) = len st - 1).
Proof.
  intros Hr st'. subst st'. rewrite (rm_proxy_in_range idx st Hr). simpl.
  assert (Hlen : len (after_rm idx st) = len st - 1).
  { unfold len, after_rm; simpl. rewrite length_delete_in_range; unfold len in Hr; lia. }
  split.
  - intros last Hl. rewrite Hl. split; [reflexivity|].
    destruct (Z.ltb_spec idx last); split; intros H'; try reflexivity; try lia.
    injection H' as H'. lia.
  - intros Hl. rewrite Hl, Z.ltb_irrefl.
    split; [reflexivity|].
    split; [apply lookup_after_delete_self|].
    split.
    { destruct (decide (idx = len (after_rm idx st))) as [|Hne]; [by left|right].
      split; [lia|]. apply lookup_lt_is_Some.
      unfold len, after_rm in *; simpl in *; lia. }
    split.
    { intros Hnd. rewrite lookup_after_delete_self.
      apply NoDup_successor_differs; [exact Hnd | unfold len in Hr; lia]. }
    split.
    { unfold force_rm_last_proxy. rewrite Hl. apply rm_proxy_in_range, Hr. }
    destruct (feedback_failure_in_range st idx Hl Hr) as (st2 & -> & Hp & Hl2 & _).
    simpl. split; [exact Hl2|].
    unfold len. rewrite Hp, length_delete_in_range; unfold len in Hr; lia.
Qed.

Lemma rm_proxy_keeps_own_position_witness :
  last_proxy_index (state_of (rm_proxy 1 (with_last (Some 1) (init [pA; pB; pC]))))
    = Some 1
  ∧ proxies (state_of (rm_proxy 1 (with_last (Some 1) (init [pA; pB; pC])))) !! 1%nat
    = Some pC.
Proof.
  destruct (rm_proxy_keeps_own_position 1 (with_last (Some 1) (init [pA; pB; pC])))
    as [_ H]; [unfold len; simpl; lia|].
  destruct H as (H1 & H2 & _); [reflexivity|].
  split; [exact H1 | exact H2].
Defined.

(** ** Deduplication *)

Section Dedup.

Implicit Types (l : list Proxy) (seen : gset string) (p : Proxy) (u : string).

Lemma keep_unseen_urls l : ∀ seen u,
  u ∈ (url <$> keep_unseen seen l) ↔ u ∈ (url <$> l) ∧ u ∉ seen.
Proof.
  induction l as [|q l IH]; intros seen u; simpl.
  - set_solver.
  - destruct (decide (url q ∈ seen)) as [Hin|Hout]; simpl.
    + rewrite IH. set_solver.
    + rewrite !elem_of_cons, IH, elem_of_union, elem_of_singleton.
      destruct (decide (u = url q)) as [->|Hne]; [tauto|].
      intuition congruence.
Qed.

Lemma keep_unseen_NoDup l : ∀ seen, NoDup (url <$> keep_unseen seen l).
Proof.
  induction l as [|q l IH]; intros seen; simpl.
  - constructor.
  - destruct (decide (url q ∈ seen)); simpl; [apply IH|].
    constructor; [|apply IH].
    rewrite keep_unseen_urls. set_solver.
Qed.

Lemma keep_unseen_sublist l : ∀ seen, keep_unseen seen l `sublist_of` l.
Proof.
  induction l as [|q l IH]; intros seen; simpl.
  - constructor.
  - destruct (decide (url q ∈ seen)).
    + apply sublist_cons, IH.
    + apply sublist_skip, IH.
Qed.

(** A kept record is the first of its url in the scanned list. *)
Lemma keep_unseen_first l : ∀ seen p,
  p ∈ keep_unseen seen l →
  ∃ l1 l2, l = l1 ++ p :: l2 ∧ (url p ∉ (url <$> l1)) ∧ (url p ∉ seen).
Proof.
  induction l as [|q l IH]; intros seen p; simpl.
  - intros H. by apply elem_of_nil in H.
  - destruct (decide (url q ∈ seen)) as [Hin|Hout].
    + intros H. destruct (IH _ _ H) as (l1 & l2 & -> & Hn & Hs).
      exists (q :: l1), l2. split; [reflexivity|]. split; [|exact Hs].
      simpl. rewrite elem_of_cons. intros [Heq|?]; [|done].
      apply Hs. by rewrite Heq.
    + rewrite elem_of_cons. intros [->|H].
      * exists [], l. split; [reflexivity|]. split; [|exact Hout].
        simpl. apply not_elem_of_nil.
      * destruct (IH _ _ H) as (l1 & l2 & -> & Hn & Hs).
        exists (q :: l1), l2. split; [reflexivity|].
        split; [|set_solver].
        simpl. rewrite elem_of_cons. set_solver.
Qed.

Lemma keep_unseen_all_new l : ∀ seen,
  NoDup (url <$> l) → (∀ u, u ∈ (url <$> l) → u ∉ seen) →
  keep_unseen seen l = l.
Proof.
  induction l as [|q l IH]; intros seen Hnd Hs; simpl; [reflexivity|].
  simpl in Hnd. apply NoDup_cons in Hnd as [Hq Hnd].
  destruct (decide (url q ∈ seen)) as [Hin|Hout].
  - exfalso. apply (Hs (url q)); [simpl; apply elem_of_cons; by left | exact Hin].
  - f_equal. apply IH; [exact Hnd|].
    intros u Hu. simpl in Hs. specialize (Hs u).
    rewrite elem_of_cons in Hs. set_solver.
Qed.

End Dedup.

(** C4. After [_rm_duplicate_proxies] no two records of the pool have the
    same url and the urls present are those present before: one record is
    left for each distinct url. The record left for a url is the last one
    with that url in the old list, the most recently added. The records
    left stand in the order of the old list reversed, newest first; a pool
    that had no duplicates comes out exactly reversed. The index is the
    one rebuilt from the new list. *)
Theorem rm_duplicate_proxies_keeps_newest (st : DataManager) :
  let st' := _rm_duplicate_proxies st in
  NoDup (url <$> proxies st')
  ∧ (∀ u, u ∈ (url <$> proxies st') ↔ u ∈ (url <$> proxies st))
  ∧ (∀ p, p ∈ proxies st' →
       ∃ older newer, proxies st = older ++ p :: newer ∧ url p ∉ (url <$> newer))
  ∧ proxies st' `sublist_of` reverse (proxies st)
  ∧ (NoDup (url <$> proxies st) → proxies st' = reverse (proxies st))
  ∧ index st' = rebuild_index (proxies st').
Proof.
  simpl. split; [apply keep_unseen_NoDup|].
  split.
  { intros u. rewrite keep_unseen_urls, fmap_reverse, elem_of_reverse. set_solver. }
  split.
  { intros p Hp. apply keep_unseen_first in Hp as (l1 & l2 & Hrev & Hn & _).
    exists (reverse l2), (reverse l1). split.
    - rewrite <- (reverse_involutive (proxies st)), Hrev.
      rewrite reverse_app, reverse_cons, <- app_assoc. reflexivity.
    - rewrite fmap_reverse, elem_of_reverse. exact Hn. }
  split; [apply keep_unseen_sublist|].
  split; [|reflexivity].
  intros Hnd. apply keep_unseen_all_new.
  - by rewrite fmap_reverse, reverse_Permutation.
  - set_solver.
Qed.

Lemma rm_duplicate_proxies_keeps_newest_witness :
  proxies (_rm_duplicate_proxies (init [pA; pB; pC])) = [pC; pB; pA].
Proof.
  destruct (rm_duplicate_proxies_keeps_newest (init [pA; pB; pC]))
    as (_ & _ & _ & _ & H & _).
  apply H. apply (bool_decide_unpack _). vm_compute. exact I.
Defined.

Example rm_duplicate_proxies_sample :
  proxies (_rm_duplicate_proxies
     (init [pA; pB; mkProxy "http://10.0.0.1:80" "http" "FR" "elite" 0 0 0; pC]))
  = [pC; mkProxy "http://10.0.0.1:80" "http" "FR" "elite" 0 0 0; pB].
Proof. vm_compute. reflexivity. Qed.

(** ** Ingestion *)

Section IngestionFacts.

Variable URL : string -> exn + ParsedURL.

Lemma new_proxy_ignores_protocol (c : gmap string string) :
  new_proxy URL (delete "protocol" c) = new_proxy URL c.
Proof.
  unfold new_proxy.
  rewrite !lookup_delete_ne by discriminate. reflexivity.
Qed.

Lemma build_new_proxies_ignores_protocol (cs : list (gmap string string)) :
  build_new_proxies URL (delete "protocol" <$> cs) = build_new_proxies URL cs.
Proof.
  induction cs as [|c cs IH]; csimpl; [reflexivity|].
  rewrite new_proxy_ignores_protocol, IH. reflexivity.
Qed.

Lemma new_proxy_built_from (c : gmap string string) (p : Proxy) :
  new_proxy URL c = inr p → built_from URL c p.
Proof.
  unfold new_proxy, built_from. intros H.
  destruct (c !! "url") as [s|]; [|discriminate].
  destruct (URL s) as [e|u] eqn:Hu; [discriminate|].
  injection H as <-. exists s, u. auto.
Qed.

Lemma build_new_proxies_built_from (cs : list (gmap string string)) :
  ∀ news, build_new_proxies URL cs = inr news → Forall2 (built_from URL) cs news.
Proof.
  induction cs as [|c cs IH]; simpl; intros news H.
  - injection H as <-. constructor.
  - destruct (new_proxy URL c) as [e|p] eqn:Hp; [discriminate|].
    destruct (build_new_proxies URL cs) as [e|ps]; [discriminate|].
    injection H as <-. constructor; [by apply new_proxy_built_from | by apply IH].
Qed.

Lemma build_new_proxies_raises (cs : list (gmap string string)) (e : exn) :
  build_new_proxies URL cs = inl e → ∃ c, c ∈ cs ∧ new_proxy URL c = inl e.
Proof.
  induction cs as [|c cs IH]; simpl; intros H; [discriminate|].
  destruct (new_proxy URL c) as [e'|p] eqn:Hp.
  - injection H as <-. exists c. split; [apply elem_of_cons; by left | exact Hp].
  - destruct (build_new_proxies URL cs) as [e'|ps]; [|discriminate].
    injection H as <-. destruct IH as (c' & Hin & Hc'); [reflexivity|].
    exists c'. split; [apply elem_of_cons; by right | exact Hc'].
Qed.

(** The two outcomes of [add_proxy]. *)
Lemma add_proxy_outcome (cs : list (gmap string string)) (st : DataManager) :
  (∃ e, build_new_proxies URL cs = inl e ∧ add_proxy URL cs st = Raise e st)
  ∨ (∃ news st', build_new_proxies URL cs = inr news
       ∧ add_proxy URL cs st = Return tt st'
       ∧ proxies st' = keep_unseen ∅ (reverse (proxies st ++ news))
       ∧ last_proxy_index st' = last_proxy_index st
       ∧ index st' = rebuild_index (proxies st')).
Proof.
  unfold add_proxy.
  destruct (build_new_proxies URL cs) as [e|news].
  - left. exists e. auto.
  - right. eexists news, _. split; [reflexivity|]. split; [reflexivity|].
    unfold update_data, _write_data, _rm_duplicate_proxies; simpl.
    destruct (msgpack st); simpl; auto.
Qed.

End IngestionFacts.

(** C3, as the design states it, fails: a batch holding [ftp_candidate]
    is ingested; nothing is raised, and the record enters the pool with
    the protocol of its url. *)
Lemma add_proxy_accepts_unknown_protocol :
  ftp_candidate !! "protocol" = Some "ftp"
  ∧ known_protocol "ftp" = false
  ∧ add_proxy sample_URL [ftp_candidate] (init [])
    = Return tt (init [mkProxy "http://10.0.0.1:80" "http" "unknown" "unknown" 0 0 0])
  ∧ ¬ ∃ e st', add_proxy sample_URL [ftp_candidate] (init []) = Raise e st'
               ∧ is_ValueError e = true.
Proof.
  split; [reflexivity|]. split; [reflexivity|].
  assert (H : add_proxy sample_URL [ftp_candidate] (init [])
    = Return tt (init [mkProxy "http://10.0.0.1:80" "http" "unknown" "unknown" 0 0 0])).
  { vm_compute. reflexivity. }
  split; [exact H|].
  intros (e & st' & He & _). rewrite H in He. discriminate He.
Qed.

(** C3, as the code has it. [add_proxy] never reads the protocol entry of
    a candidate: whatever the url parser, its outcome is the one it has
    on the batch with those entries taken out, so no value of that entry
    makes it raise. When it raises, the exception comes from a candidate
    without a url entry or from the url parser, and the state is
    unchanged. When it returns, every new record has the repr and the
    protocol of its parsed url, and the pool is the old list extended by
    the new records and deduplicated. *)
Theorem add_proxy_ignores_protocol_entry
    (URL : string -> exn + ParsedURL)
    (candidates : list (gmap string string)) (st : DataManager) :
  add_proxy URL (delete "protocol" <$> candidates) st = add_proxy URL candidates st
  ∧ (∀ e st', add_proxy URL candidates st = Raise e st' →
       st' = st ∧ ∃ c, c ∈ candidates ∧ new_proxy URL c = inl e)
  ∧ (∀ st', add_proxy URL candidates st = Return tt st' →
       ∃ new_proxies,
         Forall2 (built_from URL) candidates new_proxies
         ∧ proxies st' = keep_unseen ∅ (reverse (proxies st ++ new_proxies))).
Proof.
  split.
  { unfold add_proxy. rewrite build_new_proxies_ignores_protocol. reflexivity. }
  destruct (add_proxy_outcome URL candidates st)
    as [(e & Hb & ->) | (news & st1 & Hb & -> & Hp & _)].
  - split; [|intros st' H; discriminate H].
    intros e' st' H. injection H as <- <-. split; [reflexivity|].
    by apply build_new_proxies_raises.
  - split; [intros e st' H; discriminate H|].
    intros st' H. injection H as <-. exists news.
    split; [by apply build_new_proxies_built_from | exact Hp].
Qed.

Lemma add_proxy_ignores_protocol_entry_witness :
  ∃ new_proxies,
    Forall2 (built_from sample_URL) [ftp_candidate] new_proxies
    ∧ proxies (init [mkProxy "http://10.0.0.1:80" "http" "unknown" "unknown" 0 0 0])
      = keep_unseen ∅ (reverse (proxies (init []) ++ new_proxies)).
Proof.
  destruct (add_proxy_ignores_protocol_entry sample_URL [ftp_candidate] (init []))
    as (_ & _ & H).
  apply H. vm_compute. reflexivity.
Defined.

(** ** The remembered selection across an ingestion *)

(** A success reported for a selection that is in range. *)
Lemma feedback_success_in_range (st : DataManager) (last : Z) :
  last_proxy_index st = Some last →
  0 ≤ last < len st →
  ∃ p st', proxies st !! Z.to_nat last = Some p
    ∧ feedback_proxy true st = Return tt st'
    ∧ proxies st' = <[Z.to_nat last := record_success p]> (proxies st)
    ∧ last_proxy_index st' = Some last.
Proof.
  intros Hl Hr. unfold feedback_proxy. rewrite Hl.
  destruct (Z.leb_spec (len st) last); [lia|].
  rewrite py_pos_in_range by exact Hr.
  destruct (lookup_in_range (proxies st) last Hr) as [p Hp]. rewrite Hp.
  exists p. eexists. split; [reflexivity|]. split; [reflexivity|].
  unfold _write_data; simpl. destruct (msgpack st); simpl; auto.
Qed.

Lemma reversed_position (old new : list Proxy) (i : nat) (p : Proxy) :
  old !! i = Some p →
  reverse (old ++ new) !! (length (old ++ new) - S i)%nat = Some p.
Proof.
  intros Hp. pose proof (lookup_lt_Some _ _ _ Hp) as Hi.
  rewrite reverse_lookup_Some. rewrite length_app in *.
  split; [|lia].
  replace (length old + length new - S (length old + length new - S i))%nat
    with i by lia.
  by apply lookup_app_l_Some.
Qed.

(** C9. [add_proxy] leaves the remembered last-selection position as it
    was, whether it returns or raises, while its dedup pass rebuilds the
    list by a scan of the extended list from its end: the records left
    stand in the order of the extended list reversed; when no url is
    repeated, the new list is the extended list reversed, and the record
    that stood at position [i] stands at position [len - 1 - i]. A feedback issued after the ingestion acts on the
    record found at the remembered number in the new list: a success
    updates that record, a failure deletes it. That record need not be
    the selected one: with [pA] alone in the pool and selected, after the
    ingestion of one new url position 0 holds the new record, a success
    is credited to it and [pA] keeps its counters. *)
Theorem add_proxy_keeps_last_position :
  (∀ (URL : string -> exn + ParsedURL)
     (candidates : list (gmap string string)) (st : DataManager),
     let st' := state_of (add_proxy URL candidates st) in
     last_proxy_index st' = last_proxy_index st
     ∧ (∀ new_proxies, build_new_proxies URL candidates = inr new_proxies →
          proxies st' = keep_unseen ∅ (reverse (proxies st ++ new_proxies))
          ∧ proxies st' `sublist_of` reverse (proxies st ++ new_proxies)
          ∧ (NoDup (url <$> proxies st ++ new_proxies) →
               proxies st' = reverse (proxies st ++ new_proxies)
               ∧ ∀ i p, proxies st !! i = Some p →
                   proxies st' !! (length (proxies st') - S i)%nat = Some p))
     ∧ (∀ last, last_proxy_index st = Some last → 0 ≤ last < len st' →
          ∃ p, proxies st' !! Z.to_nat last = Some p
            ∧ proxies (state_of (feedback_proxy true st'))
              = <[Z.to_nat last := record_success p]> (proxies st')
            ∧ proxies (state_of (feedback_proxy false st'))
              = delete (Z.to_nat last) (proxies st')))
  ∧ (let st := with_last (Some 0) (init [pA]) in
     let st' := state_of (add_proxy sample_URL [ {[ "url" := "https://10.0.0.2:443" ]} ] st) in
     proxies st !! 0%nat = Some pA
     ∧ last_proxy_index st' = Some 0
     ∧ proxies st' = [pB_new; pA]
     ∧ proxies (state_of (feedback_proxy true st')) = [record_success pB_new; pA]).
Proof.
  split; [|vm_compute; repeat split; reflexivity].
  intros URL candidates st st'.
  assert (Hlast : last_proxy_index st' = last_proxy_index st).
  { subst st'.
    destruct (add_proxy_outcome URL candidates st)
      as [(e & _ & ->) | (news & st1 & _ & -> & _ & Hl & _)]; [reflexivity | exact Hl]. }
  split; [exact Hlast|]. split.
  - intros news Hb. subst st'.
    destruct (add_proxy_outcome URL candidates st)
      as [(e & Hb' & _) | (news' & st1 & Hb' & -> & Hp & _)]; [congruence|].
    assert (news' = news) as -> by congruence. simpl.
    split; [exact Hp|].
    split; [rewrite Hp; apply keep_unseen_sublist|].
    intros Hnd.
    assert (Hrev : proxies st1 = reverse (proxies st ++ news)).
    { rewrite Hp. apply keep_unseen_all_new; [|set_solver].
      by rewrite fmap_reverse, reverse_Permutation. }
    split; [exact Hrev|].
    intros i p Hi. rewrite Hrev, length_reverse. by apply reversed_position.
  - intros last Hl Hr. rewrite <- Hlast in Hl.
    destruct (feedback_success_in_range st' last Hl Hr) as (p & s1 & Hp & -> & Hp1 & _).
    destruct (feedback_failure_in_range st' last Hl Hr) as (s2 & -> & Hp2 & _).
    exists p. simpl. auto.
Qed.

Lemma add_proxy_keeps_last_position_witness :
  ∃ p, proxies after_sample_add !! Z.to_nat 0 = Some p
    ∧ proxies (state_of (feedback_proxy true after_sample_add))
      = <[Z.to_nat 0 := record_success p]> (proxies after_sample_add)
    ∧ proxies (state_of (feedback_proxy false after_sample_add))
      = delete (Z.to_nat 0) (proxies after_sample_add).
Proof.
  destruct add_proxy_keeps_last_position as [H _].
  destruct (H sample_URL [ {[ "url" := "https://10.0.0.2:443" ]} ]
              (with_last (Some 0) (init [pA]))) as (_ & _ & H').
  apply (H' 0); [reflexivity | vm_compute; split; [discriminate | reflexivity]].
Defined.

(** ** The index and the filters *)

Lemma at_pos_unique (l : list Proxy) (j : Z) (p q : Proxy) :
  at_pos l j p → at_pos l j q → p = q.
Proof. intros [_ Hp] [_ Hq]. congruence. Qed.

Lemma elem_of_bucket_add (i : Z) (k : string) (m : gmap string (gset Z))
    (j : Z) (k' : string) :
  j ∈ bucket (bucket_add i k m) k' ↔ (j = i ∧ k' = k) ∨ j ∈ bucket m k'.
Proof.
  unfold bucket_add. destruct (decide (k = k')) as [->|Hne].
  - unfold bucket at 1. rewrite lookup_insert_eq. simpl.
    rewrite elem_of_union, elem_of_singleton. tauto.
  - unfold bucket at 1. rewrite lookup_insert_ne by exact Hne.
    fold (bucket m k'). split; [tauto|]. intros [[_ ->]|H]; [done | exact H].
Qed.

Lemma index_of_add_proxy (a : attribute) (i : Z) (p : Proxy) (idx : ProxyIndex) :
  index_of a (index_add_proxy i p idx) = bucket_add i (attr_of a p) (index_of a idx).
Proof. destruct a; reflexivity. Qed.

Lemma elem_of_index_add_from (a : attribute) (l : list Proxy) :
  ∀ (s : Z) (idx : ProxyIndex) (j : Z) (k : string),
    j ∈ bucket (index_of a (index_add_from s l idx)) k
    ↔ j ∈ bucket (index_of a idx) k
      ∨ ∃ n p, l !! n = Some p ∧ j = s + Z.of_nat n ∧ attr_of a p = k.
Proof.
  induction l as [|q l IH]; intros s idx j k; simpl.
  - split; [tauto|]. intros [H|(n & p & Hn & _)]; [exact H | discriminate Hn].
  - rewrite IH, index_of_add_proxy, elem_of_bucket_add. split.
    + intros [[[-> ->]|H]|(n & p & Hn & -> & Hk)].
      * right. exists 0%nat, q. split; [reflexivity|]. split; [lia | reflexivity].
      * left. exact H.
      * right. exists (S n), p. split; [exact Hn|]. split; [lia | exact Hk].
    + intros [H|(n & p & Hn & -> & Hk)]; [tauto|].
      destruct n as [|n]; simpl in Hn.
      * injection Hn as ->. left. left. split; [lia | done].
      * right. exists n, p. split; [exact Hn|]. split; [lia | exact Hk].
Qed.

(** The buckets of a rebuilt index hold the positions of the records with
    that attribute value, and nothing else. *)
Lemma elem_of_rebuild_index (a : attribute) (l : list Proxy) (j : Z) (k : string) :
  j ∈ bucket (index_of a (rebuild_index l)) k
  ↔ ∃ p, at_pos l j p ∧ attr_of a p = k.
Proof.
  unfold rebuild_index. rewrite elem_of_index_add_from. split.
  - intros [H|(n & p & Hn & -> & Hk)].
    + destruct a; simpl in H; by apply not_elem_of_empty in H.
    + exists p. split; [|exact Hk]. split; [lia|].
      by rewrite Z.add_0_l, Nat2Z.id.
  - intros (p & [Hj Hp] & Hk). right.
    exists (Z.to_nat j), p. split; [exact Hp|]. split; [lia | exact Hk].
Qed.

Lemma elem_of_union_buckets (m : gmap string (gset Z)) (values : list string) (j : Z) :
  j ∈ union_buckets m values ↔ ∃ v, v ∈ values ∧ j ∈ bucket m v.
Proof.
  unfold union_buckets. rewrite elem_of_union_list. split.
  - intros (X & HX & Hj). apply list_elem_of_fmap in HX as (v & -> & Hv). eauto.
  - intros (v & Hv & Hj). exists (bucket m v).
    split; [by apply list_elem_of_fmap_2 | exact Hj].
Qed.

Lemma elem_of_range_set (n : nat) (j : Z) :
  j ∈ range_set n ↔ 0 ≤ j < Z.of_nat n.
Proof.
  unfold range_set. rewrite elem_of_list_to_set, list_elem_of_fmap. split.
  - intros (i & -> & Hi). apply elem_of_seq in Hi. lia.
  - intros H. exists (Z.to_nat j). split; [lia|]. apply elem_of_seq. lia.
Qed.

Lemma include_subseteq (a : str_arg) (m : gmap string (gset Z)) (V : gset Z) :
  include a m V ⊆ V.
Proof. unfold include. destruct (truthy a); set_solver. Qed.

Lemma exclude_subseteq (a : str_arg) (m : gmap string (gset Z)) (V : gset Z) :
  exclude a m V ⊆ V.
Proof. unfold exclude. destruct (truthy a); set_solver. Qed.

Lemma elem_of_include_rebuilt (a : attribute) (arg : str_arg) (l : list Proxy)
    (V : gset Z) (j : Z) (p : Proxy) :
  at_pos l j p →
  j ∈ include arg (index_of a (rebuild_index l)) V
  ↔ j ∈ V ∧ included arg (attr_of a p) = true.
Proof.
  intros Hp. unfold include, included. destruct (truthy arg); simpl; [|tauto].
  rewrite elem_of_intersection, elem_of_union_buckets, bool_decide_eq_true.
  split; intros [HV H]; (split; [exact HV|]).
  - destruct H as (v & Hv & Hj).
    apply elem_of_rebuild_index in Hj as (p' & Hp' & <-).
    by rewrite (at_pos_unique l j p p' Hp Hp').
  - exists (attr_of a p). split; [exact H|].
    apply elem_of_rebuild_index. eauto.
Qed.

Lemma elem_of_exclude_rebuilt (a : attribute) (arg : str_arg) (l : list Proxy)
    (V : gset Z) (j : Z) (p : Proxy) :
  at_pos l j p →
  j ∈ exclude arg (index_of a (rebuild_index l)) V
  ↔ j ∈ V ∧ excluded arg (attr_of a p) = false.
Proof.
  intros Hp. unfold exclude, excluded. destruct (truthy arg); simpl; [|tauto].
  rewrite elem_of_difference, elem_of_union_buckets, bool_decide_eq_false.
  split; intros [HV H]; (split; [exact HV|]).
  - intros Hin. apply H. exists (attr_of a p). split; [exact Hin|].
    apply elem_of_rebuild_index. eauto.
  - intros (v & Hv & Hj).
    apply elem_of_rebuild_index in Hj as (p' & Hp' & <-).
    apply H. by rewrite (at_pos_unique l j p p' Hp Hp').
Qed.

Lemma avoid_last_subseteq (last : option Z) (V : gset Z) : avoid_last last V ⊆ V.
Proof.
  unfold avoid_last. destruct last as [i|]; [|done].
  destruct (bool_decide (i ∈ V) && (1 <? Z.of_nat (size V))); set_solver.
Qed.

Lemma avoid_last_nonempty (last : option Z) (V : gset Z) :
  V ≠ ∅ → avoid_last last V ≠ ∅.
Proof.
  intros HV. unfold avoid_last. destruct last as [i|]; [|exact HV].
  destruct (bool_decide (i ∈ V) && (1 <? Z.of_nat (size V))) eqn:E; [|exact HV].
  apply andb_true_iff in E as [Hi Hs].
  apply bool_decide_eq_true in Hi. apply Z.ltb_lt in Hs.
  intros Hempty.
  assert (Hsz : size (V ∖ {[i]}) = (size V - 1)%nat).
  { rewrite size_difference by set_solver. by rewrite size_singleton. }
  rewrite Hempty, size_empty in Hsz. lia.
Qed.

Lemma avoid_last_excludes (i : Z) (V : gset Z) :
  i ∈ V → (1 < size V)%nat → i ∉ avoid_last (Some i) V.
Proof.
  intros Hi Hs. unfold avoid_last.
  rewrite (bool_decide_eq_true_2 _ Hi).
  destruct (Z.ltb_spec 1 (Z.of_nat (size V))); [|lia]. simpl. set_solver.
Qed.

Lemma choice_elements (rnd : nat) (V : gset Z) :
  V ≠ ∅ → ∃ x, choice rnd (elements V) = Some x ∧ x ∈ V.
Proof.
  intros HV. unfold choice.
  assert (Hlen : length (elements V) ≠ 0%nat).
  { intros H0. apply HV. apply leibniz_equiv, elements_empty_iff.
    by apply length_zero_iff_nil. }
  destruct (lookup_lt_is_Some_2 (elements V) (rnd `mod` length (elements V))%nat)
    as [x Hx]; [by apply Nat.mod_upper_bound|].
  exists x. split; [exact Hx|].
  apply elem_of_elements, list_elem_of_lookup. eauto.
Qed.

(** ** Selection *)

Section Selection.

Variables (return_type : string)
  (protocol_ country_ anonymity_ exclude_protocol exclude_country exclude_anonymity : str_arg).

#[local] Abbreviation valid_of st :=
  (filtered_indices protocol_ country_ anonymity_
                    exclude_protocol exclude_country exclude_anonymity st).
#[local] Abbreviation select rnd st :=
  (get_proxy return_type protocol_ country_ anonymity_
             exclude_protocol exclude_country exclude_anonymity rnd st).
#[local] Abbreviation wanted p :=
  (matches protocol_ country_ anonymity_
           exclude_protocol exclude_country exclude_anonymity p).

Lemma filtered_indices_in_range (st : DataManager) (j : Z) :
  j ∈ valid_of st → ∃ p, at_pos (proxies st) j p.
Proof.
  unfold filtered_indices. intros H.
  do 3 apply exclude_subseteq in H. do 3 apply include_subseteq in H.
  apply elem_of_range_set in H.
  destruct (lookup_in_range (proxies st) j H) as [p Hp].
  exists p. split; [lia | exact Hp].
Qed.

(** With an index that is the rebuilt one, the valid positions are those
    of the records that the filters ask for. *)
Lemma elem_of_filtered_indices (st : DataManager) (j : Z) (p : Proxy) :
  index st = rebuild_index (proxies st) →
  at_pos (proxies st) j p →
  j ∈ valid_of st ↔ wanted p = true.
Proof.
  intros Hidx Hp. unfold filtered_indices. rewrite Hidx.
  change (protocol_index (rebuild_index (proxies st)))
    with (index_of Protocol (rebuild_index (proxies st))).
  change (country_index (rebuild_index (proxies st)))
    with (index_of Country (rebuild_index (proxies st))).
  change (anonymity_index (rebuild_index (proxies st)))
    with (index_of Anonymity (rebuild_index (proxies st))).
  rewrite !(elem_of_exclude_rebuilt _ _ _ _ _ _ Hp).
  rewrite !(elem_of_include_rebuilt _ _ _ _ _ _ Hp).
  rewrite elem_of_range_set. unfold matches. simpl.
  rewrite !andb_true_iff, !negb_true_iff.
  destruct Hp as [H0 Hp]. apply lookup_lt_Some in Hp. intuition lia.
Qed.

Lemma filtered_indices_with_last (o : option Z) (st : DataManager) :
  valid_of (with_last o st) = valid_of st.
Proof. reflexivity. Qed.

(** What [get_proxy] does once the pool is large enough and some position
    is valid: it draws a position from the valid ones, the remembered one
    set aside when it can be, remembers it, and reads the requested field
    of the record there. *)
Lemma get_proxy_selects (rnd : nat) (st : DataManager) :
  not_enough st = false →
  valid_of st ≠ ∅ →
  ∃ sel p,
    sel ∈ avoid_last (last_proxy_index st) (valid_of st)
    ∧ at_pos (proxies st) sel p
    ∧ select rnd st =
        match getitem p return_type with
        | Some chosen_proxy => Return chosen_proxy (with_last (Some sel) st)
        | None => Raise (KeyError return_type) (with_last (Some sel) st)
        end.
Proof.
  intros Hmin HV. unfold get_proxy. rewrite Hmin.
  rewrite (bool_decide_eq_false_2 _ HV).
  destruct (choice_elements rnd _ (avoid_last_nonempty (last_proxy_index st) _ HV))
    as (sel & -> & Hsel).
  destruct (filtered_indices_in_range st sel (avoid_last_subseteq _ _ _ Hsel))
    as (p & Hp).
  exists sel, p. split; [exact Hsel|]. split; [exact Hp|].
  destruct Hp as [H0 Hp]. pose proof (lookup_lt_Some _ _ _ Hp) as Hlt.
  cbv zeta. change (proxies (with_last (Some sel) st)) with (proxies st).
  rewrite py_pos_in_range by lia. rewrite Hp. reflexivity.
Qed.

(** A call that returned went through the draw. *)
Lemma get_proxy_returned (rnd : nat) (st : DataManager) (v : value) (st' : DataManager) :
  select rnd st = Return v st' →
  not_enough st = false ∧ valid_of st ≠ ∅.
Proof.
  unfold get_proxy. destruct (not_enough st); [discriminate|].
  destruct (bool_decide_reflect (valid_of st = ∅)); [discriminate|]. auto.
Qed.

Lemma select_respects_filters (rnd : nat) (st : DataManager) :
  index st = rebuild_index (proxies st) →
  (∀ v st', select rnd st = Return v st' →
     ∃ sel p, st' = with_last (Some sel) st
       ∧ at_pos (proxies st) sel p
       ∧ getitem p return_type = Some v
       ∧ wanted p = true)
  ∧ (Forall (fun p => wanted p = false) (proxies st) →
     ∃ msg, select rnd st = Raise (NoProxyAvailable msg) st).
Proof.
  intros Hidx. split.
  - intros v st' Hret.
    destruct (get_proxy_returned rnd st v st' Hret) as [Hmin HV].
    destruct (get_proxy_selects rnd st Hmin HV) as (sel & p & Hsel & Hp & Hget).
    rewrite Hget in Hret. exists sel, p.
    destruct (getitem p return_type) as [v'|]; [|discriminate].
    injection Hret as <- <-.
    split; [reflexivity|]. split; [exact Hp|]. split; [reflexivity|].
    apply (elem_of_filtered_indices st sel p Hidx Hp).
    by apply (avoid_last_subseteq (last_proxy_index st)).
  - intros Hnone. unfold get_proxy.
    destruct (not_enough st); [eauto|].
    assert (HV : valid_of st = ∅).
    { apply leibniz_equiv, elem_of_equiv_empty. intros j Hj.
      destruct (filtered_indices_in_range st j Hj) as (p & Hp).
      apply (elem_of_filtered_indices st j p Hidx Hp) in Hj.
      rewrite Forall_forall in Hnone.
      rewrite (Hnone p) in Hj; [discriminate|].
      destruct Hp as [_ Hp]. by apply list_elem_of_lookup_2 in Hp. }
    rewrite (bool_decide_eq_true_2 _ HV). eauto.
Qed.

Lemma select_avoids_last (rnd : nat) (st : DataManager) (last : Z) :
  not_enough st = false →
  last_proxy_index st = Some last →
  last ∈ valid_of st →
  (1 < size (valid_of st))%nat →
  ∃ sel p, last_proxy_index (state_of (select rnd st)) = Some sel
    ∧ sel ≠ last
    ∧ sel ∈ valid_of st
    ∧ at_pos (proxies st) sel p
    ∧ select rnd st =
        match getitem p return_type with
        | Some chosen_proxy => Return chosen_proxy (with_last (Some sel) st)
        | None => Raise (KeyError return_type) (with_last (Some sel) st)
        end.
Proof.
  intros Hmin Hl Hin Hsz.
  assert (HV : valid_of st ≠ ∅) by set_solver.
  destruct (get_proxy_selects rnd st Hmin HV) as (sel & p & Hsel & Hp & Hget).
  exists sel, p. rewrite Hl in Hsel.
  split; [rewrite Hget; by destruct (getitem p return_type)|].
  split; [intros ->; by apply (avoid_last_excludes last _ Hin Hsz)|].
  split; [by apply (avoid_last_subseteq (Some last))|].
  split; [exact Hp | exact Hget].
Qed.

End Selection.

(** C5. With an index that is the one rebuilt from the pool (every
    mutating method leaves it so), a [get_proxy] call that returns has
    remembered a position of the pool whose record it read the returned
    field from, and that record satisfies every include filter that was
    given and is hit by no exclude filter that was given; and when no
    record of the pool satisfies the filters, the call raises
    [NoProxyAvailable] and leaves the state unchanged. *)
Theorem get_proxy_respects_filters (return_type : string)
    (protocol_ country_ anonymity_ exclude_protocol exclude_country exclude_anonymity : str_arg)
    (rnd : nat) (st : DataManager) :
  index st = rebuild_index (proxies st) →
  (∀ v st',
     get_proxy return_type protocol_ country_ anonymity_
               exclude_protocol exclude_country exclude_anonymity rnd st
     = Return v st' →
     ∃ sel p, st' = with_last (Some sel) st
       ∧ at_pos (proxies st) sel p
       ∧ getitem p return_type = Some v
       ∧ matches protocol_ country_ anonymity_
                 exclude_protocol exclude_country exclude_anonymity p = true)
  ∧ (Forall (fun p => matches protocol_ country_ anonymity_
                        exclude_protocol exclude_country exclude_anonymity p = false)
            (proxies st) →
     ∃ msg,
       get_proxy return_type protocol_ country_ anonymity_
                 exclude_protocol exclude_country exclude_anonymity rnd st
       = Raise (NoProxyAvailable msg) st).
Proof. apply select_respects_filters. Qed.

Lemma get_proxy_respects_filters_witness :
  (∃ sel p,
     with_last (Some 2) (init [pA; pB; pC]) = with_last (Some sel) (init [pA; pB; pC])
     ∧ at_pos (proxies (init [pA; pB; pC])) sel p
     ∧ getitem p "url" = Some (VStr "http://10.0.0.3:80")
     ∧ matches (ArgList ["http"]) ArgNone ArgNone ArgNone (ArgStr "DE") ArgNone p = true)
  ∧ ∃ msg,
      get_proxy "url" (ArgList ["http"]) ArgNone ArgNone ArgNone ArgNone ArgNone 0 https_pool
      = Raise (NoProxyAvailable msg) https_pool.
Proof.
  split.
  - destruct (get_proxy_respects_filters "url" (ArgList ["http"]) ArgNone ArgNone
                ArgNone (ArgStr "DE") ArgNone 0 (init [pA; pB; pC])) as [H _];
      [reflexivity|].
    apply H. vm_compute. reflexivity.
  - destruct (get_proxy_respects_filters "url" (ArgList ["http"]) ArgNone ArgNone
                ArgNone ArgNone ArgNone 0 https_pool) as [_ H];
      [reflexivity|].
    apply H. repeat constructor.
Defined.

(** C6. When the pool is large enough, the remembered position is among
    the valid positions and there is more than one of them, [get_proxy]
    remembers a valid position other than the one remembered before, and
    it is the record there that it reads. Hence, for a pool that holds no
    url twice, when a call returned an endpoint and at least two positions
    satisfy the filters, the next call with the same filters returns as
    well, whatever its draw, and returns another endpoint. *)
Theorem get_proxy_avoids_last
    (protocol_ country_ anonymity_ exclude_protocol exclude_country exclude_anonymity : str_arg)
    (st : DataManager) :
  (∀ return_type rnd last,
     not_enough st = false →
     last_proxy_index st = Some last →
     last ∈ filtered_indices protocol_ country_ anonymity_
              exclude_protocol exclude_country exclude_anonymity st →
     (1 < size (filtered_indices protocol_ country_ anonymity_
                  exclude_protocol exclude_country exclude_anonymity st))%nat →
     ∃ sel,
       last_proxy_index
         (state_of (get_proxy return_type protocol_ country_ anonymity_
                      exclude_protocol exclude_country exclude_anonymity rnd st))
       = Some sel
       ∧ sel ≠ last
       ∧ sel ∈ filtered_indices protocol_ country_ anonymity_
                 exclude_protocol exclude_country exclude_anonymity st)
  ∧ (∀ rnd1 rnd2 v1 st1,
       NoDup (url <$> proxies st) →
       (2 ≤ size (filtered_indices protocol_ country_ anonymity_
                    exclude_protocol exclude_country exclude_anonymity st))%nat →
       get_proxy "url" protocol_ country_ anonymity_
                 exclude_protocol exclude_country exclude_anonymity rnd1 st
       = Return v1 st1 →
       ∃ v2 st2,
         get_proxy "url" protocol_ country_ anonymity_
                   exclude_protocol exclude_country exclude_anonymity rnd2 st1
         = Return v2 st2
         ∧ v2 ≠ v1
         ∧ last_proxy_index st2 ≠ last_proxy_index st1).
Proof.
  split.
  - intros return_type rnd last Hmin Hl Hin Hsz.
    destruct (select_avoids_last return_type protocol_ country_ anonymity_
                exclude_protocol exclude_country exclude_anonymity
                rnd st last Hmin Hl Hin Hsz) as (sel & p & H1 & H2 & H3 & _).
    eauto.
  - intros rnd1 rnd2 v1 st1 Hnd Hsz Hret.
    destruct (get_proxy_returned _ _ _ _ _ _ _ _ _ _ _ Hret) as [Hmin HV].
    destruct (get_proxy_selects "url" protocol_ country_ anonymity_
                exclude_protocol exclude_country exclude_anonymity
                rnd1 st Hmin HV) as (sel1 & p1 & Hsel1 & Hp1 & Hget1).
    rewrite Hget1 in Hret. simpl in Hret. injection Hret as <- <-.
    apply avoid_last_subseteq in Hsel1.
    destruct (select_avoids_last "url" protocol_ country_ anonymity_
                exclude_protocol exclude_country exclude_anonymity
                rnd2 (with_last (Some sel1) st) sel1)
      as (sel2 & p2 & _ & Hne & _ & Hp2 & Hget2);
      [exact Hmin | reflexivity | exact Hsel1 | exact Hsz |].
    simpl in Hget2. rewrite Hget2.
    eexists _, _. split; [reflexivity|].
    split; [|simpl; congruence].
    intros Heq. injection Heq as Heq. apply Hne.
    destruct Hp1 as [H01 Hp1]. destruct Hp2 as [H02 Hp2]. simpl in Hp2.
    assert (Z.to_nat sel2 = Z.to_nat sel1); [|lia].
    apply (NoDup_lookup (url <$> proxies st) _ _ (url p1) Hnd).
    + rewrite list_lookup_fmap, Hp2. simpl. by rewrite Heq.
    + by rewrite list_lookup_fmap, Hp1.
Qed.

Lemma get_proxy_avoids_last_witness :
  (∃ sel,
     last_proxy_index
       (state_of (get_proxy "url" (ArgStr "http") ArgNone ArgNone ArgNone ArgNone ArgNone 0
                    (with_last (Some 0) (init [pA; pB; pC]))))
     = Some sel
     ∧ sel ≠ 0
     ∧ sel ∈ filtered_indices (ArgStr "http") ArgNone ArgNone ArgNone ArgNone ArgNone
               (with_last (Some 0) (init [pA; pB; pC])))
  ∧ ∃ v2 st2,
      get_proxy "url" (ArgStr "http") ArgNone ArgNone ArgNone ArgNone ArgNone 5
                (with_last (Some 0) (init [pA; pB; pC]))
      = Return v2 st2
      ∧ v2 ≠ VStr "http://10.0.0.1:80"
      ∧ last_proxy_index st2 ≠ last_proxy_index (with_last (Some 0) (init [pA; pB; pC])).
Proof.
  split.
  - destruct (get_proxy_avoids_last (ArgStr "http") ArgNone ArgNone ArgNone ArgNone ArgNone
                (with_last (Some 0) (init [pA; pB; pC]))) as [H _].
    apply (H "url" 0%nat 0); [reflexivity | reflexivity | by vm_compute |].
    vm_compute. lia.
  - destruct (get_proxy_avoids_last (ArgStr "http") ArgNone ArgNone ArgNone ArgNone ArgNone
                (init [pA; pB; pC])) as [_ H].
    apply (H 1%nat 5%nat (VStr "http://10.0.0.1:80")
             (with_last (Some 0) (init [pA; pB; pC]))).
    + vm_compute. repeat constructor; set_solver.
    + vm_compute. lia.
    + vm_compute. reflexivity.
Defined.

(** ** The pool invariant *)

Lemma index_add_proxy_same_attributes (i : Z) (p q : Proxy) (idx : ProxyIndex) :
  same_attributes p q → index_add_proxy i p idx = index_add_proxy i q idx.
Proof.
  intros (_ & Hp & Hc & Ha). unfold index_add_proxy. by rewrite Hp, Hc, Ha.
Qed.

Lemma index_add_from_insert (l : list Proxy) :
  ∀ (n : nat) (p q : Proxy) (s : Z) (idx : ProxyIndex),
    l !! n = Some p → same_attributes q p →
    index_add_from s (<[n := q]> l) idx = index_add_from s l idx.
Proof.
  induction l as [|x l IH]; intros n p q s idx Hn Hs; [discriminate Hn|].
  destruct n as [|n]; simpl in *.
  - injection Hn as ->. by rewrite (index_add_proxy_same_attributes s q p idx Hs).
  - by apply (IH n p).
Qed.

Lemma pool_ok_insert (st : DataManager) (n : nat) (p q : Proxy) :
  proxies st !! n = Some p → same_attributes q p →
  pool_ok st → pool_ok (with_proxies (<[n := q]> (proxies st)) st).
Proof.
  intros Hn Hs [Hi Hnd]. split; simpl.
  - rewrite Hi. unfold rebuild_index. symmetry. by apply (index_add_from_insert _ n p).
  - rewrite list_fmap_insert. destruct Hs as [-> _].
    rewrite list_insert_id; [exact Hnd|]. by rewrite list_lookup_fmap, Hn.
Qed.

Lemma pool_ok_write_data (st : DataManager) : pool_ok st → pool_ok (_write_data st).
Proof. unfold _write_data. by destruct (msgpack st). Qed.

Lemma pool_ok_rm_proxy (idx : Z) (st : DataManager) :
  pool_ok st → pool_ok (state_of (rm_proxy idx st)).
Proof.
  intros Hok. destruct (decide (0 ≤ idx < len st)) as [Hr|Hr].
  - rewrite (rm_proxy_in_range idx st Hr). destruct Hok as [_ Hnd].
    split; simpl; [reflexivity|].
    rewrite list_fmap_delete. eapply sublist_NoDup; [exact Hnd | apply sublist_delete].
  - by rewrite (rm_proxy_out_of_range idx st Hr).
Qed.

Lemma pool_ok_feedback_proxy (success : bool) (st : DataManager) :
  pool_ok st → pool_ok (state_of (feedback_proxy success st)).
Proof.
  intros Hok. unfold feedback_proxy.
  destruct (last_proxy_index st) as [last|]; [|exact Hok].
  destruct (len st <=? last); [exact Hok|].
  destruct (py_pos (proxies st) last) as [n|]; [|exact Hok].
  destruct (proxies st !! n) as [p|] eqn:Hp; [|exact Hok].
  destruct success; simpl.
  - apply pool_ok_write_data, (pool_ok_insert st n p); [exact Hp | by repeat split | exact Hok].
  - set (st1 := with_proxies _ st).
    assert (Hok1 : pool_ok st1).
    { apply (pool_ok_insert st n p); [exact Hp | by repeat split | exact Hok]. }
    pose proof (pool_ok_rm_proxy last st1 Hok1) as H.
    destruct (rm_proxy last st1); simpl in *; [by apply pool_ok_write_data | exact H].
Qed.

Lemma pool_ok_add_proxy (URL : string -> exn + ParsedURL)
    (candidates : list (gmap string string)) (st : DataManager) :
  pool_ok st → pool_ok (state_of (add_proxy URL candidates st)).
Proof.
  intros Hok.
  destruct (add_proxy_outcome URL candidates st)
    as [(e & _ & ->) | (news & st1 & _ & -> & Hp & _ & Hi)]; [exact Hok|].
  split; simpl; [exact Hi|]. rewrite Hp. apply keep_unseen_NoDup.
Qed.

Lemma pool_ok_get_proxy (return_type : string)
    (protocol_ country_ anonymity_ exclude_protocol exclude_country exclude_anonymity : str_arg)
    (rnd : nat) (st : DataManager) :
  pool_ok st →
  pool_ok (state_of (get_proxy return_type protocol_ country_ anonymity_
                       exclude_protocol exclude_country exclude_anonymity rnd st)).
Proof.
  intros Hok. unfold get_proxy.
  destruct (not_enough st); [exact Hok|].
  destruct (bool_decide _); [exact Hok|].
  destruct (choice rnd _) as [sel|]; [|exact Hok]. cbv zeta.
  destruct (py_pos _ sel) as [n|]; [|exact Hok].
  destruct (proxies _ !! n) as [p|]; [|exact Hok].
  destruct (getitem p return_type); exact Hok.
Qed.

Lemma pool_ok_rm_all_proxies (st : DataManager) :
  pool_ok (state_of (rm_all_proxies st)).
Proof.
  unfold rm_all_proxies; simpl. apply pool_ok_write_data.
  split; simpl; [reflexivity | constructor].
Qed.

Lemma pool_ok_force_rm_last_proxy (st : DataManager) :
  pool_ok st → pool_ok (state_of (force_rm_last_proxy st)).
Proof.
  intros Hok. unfold force_rm_last_proxy.
  destruct (last_proxy_index st); [by apply pool_ok_rm_proxy | exact Hok].
Qed.

(** * Further properties of the module *)

(** ** [_validate_protocol] *)

Lemma find_first_split (f : string -> bool) (l : list string) :
  match List.find f l with
  | Some x => ∃ before after,
      l = before ++ x :: after ∧ f x = true ∧ Forall (fun y => f y = false) before
  | None => Forall (fun y => f y = false) l
  end.
Proof.
  induction l as [|y l IH]; simpl; [constructor|].
  destruct (f y) eqn:Hy.
  - exists [], l. split; [reflexivity|]. split; [exact Hy | constructor].
  - destruct (List.find f l) as [x|].
    + destruct IH as (before & after & -> & Hx & Hb).
      exists (y :: before), after. split; [reflexivity|]. split; [exact Hx|].
      by constructor.
    + by constructor.
Qed.

Lemma known_protocol_true (p : string) :
  negb (known_protocol p) = false ↔ p ∈ known_protocols.
Proof.
  unfold known_protocol. rewrite negb_false_iff. apply bool_decide_eq_true.
Qed.

(** X1. [_validate_protocol] gives [None] back for [None] only. For a
    string or a list it returns the list (a string becomes the list of
    that one string) exactly when every entry is one of http, https,
    socks4, socks5; otherwise it raises a [ValueError] whose message
    names the first entry that is not. *)
Theorem validate_protocol_accepts_known_only (protocols : str_arg) :
  match _validate_protocol protocols with
  | inr None => protocols = ArgNone
  | inr (Some l) =>
      protocols ≠ ArgNone ∧ l = as_list protocols
      ∧ Forall (fun p => p ∈ known_protocols) l
  | inl e =>
      protocols ≠ ArgNone
      ∧ ∃ before invalid_protocol after,
          as_list protocols = before ++ invalid_protocol :: after
          ∧ Forall (fun p => p ∈ known_protocols) before
          ∧ (invalid_protocol ∉ known_protocols)
          ∧ e = ValueError ("You can't use this protocol: " ++ invalid_protocol)
  end.
Proof.
  assert (Hgen : ∀ l,
    match List.find (fun p => negb (known_protocol p)) l with
    | Some bad => ∃ before after, l = before ++ bad :: after
        ∧ Forall (fun p => p ∈ known_protocols) before ∧ (bad ∉ known_protocols)
    | None => Forall (fun p => p ∈ known_protocols) l
    end).
  { intros l. pose proof (find_first_split (fun p => negb (known_protocol p)) l) as H.
    destruct (List.find _ l) as [bad|].
    - destruct H as (before & after & -> & Hbad & Hb).
      exists before, after. split; [reflexivity|]. split.
      + eapply Forall_impl; [exact Hb|]. intros p. apply known_protocol_true.
      + intros Hin. apply known_protocol_true in Hin. congruence.
    - eapply Forall_impl; [exact H|]. intros p. apply known_protocol_true. }
  destruct protocols as [|s|l];
    cbv beta iota zeta delta [_validate_protocol as_list]; [reflexivity| |].
  - specialize (Hgen [s]).
    destruct (List.find _ [s]) as [bad|].
    + split; [discriminate|]. destruct Hgen as (before & after & ? & ? & ?).
      exists before, bad, after. auto.
    + split; [discriminate|]. auto.
  - specialize (Hgen l).
    destruct (List.find _ l) as [bad|].
    + split; [discriminate|]. destruct Hgen as (before & after & ? & ? & ?).
      exists before, bad, after. auto.
    + split; [discriminate|]. auto.
Qed.

Example validate_protocol_sample :
  _validate_protocol (ArgList ["http"; "ftp"; "gopher"])
  = inl (ValueError "You can't use this protocol: ftp")
  ∧ _validate_protocol (ArgStr "socks5") = inr (Some ["socks5"])
  ∧ _validate_protocol (ArgList []) = inr (Some []).
Proof. vm_compute. auto. Qed.

(** ** What a feedback does to the pool *)

(** X2. A success reported for an in-range selection adds one to
    [times_succeed] of the selected record and sets its
    [times_failed_in_row] to 0; its [times_failed] and its attributes stay,
    every other record stays, and so do the length of the pool, the
    remembered position and the index; the pool is written to the store
    file when there is one. *)
Theorem feedback_success_updates_selected (st : DataManager) (last : Z) (p : Proxy) :
  last_proxy_index st = Some last →
  0 ≤ last < len st →
  proxies st !! Z.to_nat last = Some p →
  ∃ st' q, feedback_proxy true st = Return tt st'
    ∧ proxies st' !! Z.to_nat last = Some q
    ∧ times_succeed q = times_succeed p + 1
    ∧ times_failed_in_row q = 0
    ∧ times_failed q = times_failed p
    ∧ same_attributes q p
    ∧ (∀ j, j ≠ Z.to_nat last → proxies st' !! j = proxies st !! j)
    ∧ len st' = len st
    ∧ last_proxy_index st' = Some last
    ∧ index st' = index st
    ∧ msgpack st' = match msgpack st with
                    | Some _ => Some (proxies st')
                    | None => None
                    end.
Proof.
  intros Hl Hr Hp. unfold feedback_proxy. rewrite Hl.
  destruct (Z.leb_spec (len st) last); [lia|].
  rewrite py_pos_in_range by exact Hr. rewrite Hp.
  eexists _, (record_success p). split; [reflexivity|].
  assert (Hlt : (Z.to_nat last < length (proxies st))%nat) by (unfold len in Hr; lia).
  unfold _write_data; destruct (msgpack st) eqn:Hm; simpl; rewrite ?Hm;
    (split; [by apply list_lookup_insert_eq|]);
    (do 4 (split; [done|]));
    (split; [intros j Hj; by apply list_lookup_insert_ne|]);
    (split; [unfold len; simpl; by rewrite length_insert|]); auto.
Qed.

Lemma feedback_success_updates_selected_witness :
  ∃ st' q, feedback_proxy true stored_pool = Return tt st'
    ∧ proxies st' !! Z.to_nat 1 = Some q
    ∧ times_succeed q = times_succeed pB + 1
    ∧ times_failed_in_row q = 0
    ∧ msgpack st' = Some (proxies st').
Proof.
  destruct (feedback_success_updates_selected stored_pool 1 pB)
    as (st' & q & H1 & H2 & H3 & H4 & _ & _ & _ & _ & _ & _ & H5);
    [reflexivity | unfold len; simpl; lia | reflexivity |].
  exists st', q. auto.
Defined.

(** X3. A failure reported for an in-range selection ends, whatever the
    thresholds and the counters are, with the selected record taken out of
    the pool: the pool is the old list without that position, one
    shorter, the records before it keep their positions and the records
    after it move down by one with their counters untouched; the
    remembered position keeps its number, the index is the rebuilt one
    and the pool is written to the store file when there is one. *)
Theorem feedback_failure_removes_selected (st : DataManager) (last : Z) :
  last_proxy_index st = Some last →
  0 ≤ last < len st →
  ∃ st', feedback_proxy false st = Return tt st'
    ∧ proxies st' = delete (Z.to_nat last) (proxies st)
    ∧ len st' = len st - 1
    ∧ (∀ j, (j < Z.to_nat last)%nat → proxies st' !! j = proxies st !! j)
    ∧ (∀ j, (Z.to_nat last ≤ j)%nat → proxies st' !! j = proxies st !! S j)
    ∧ last_proxy_index st' = Some last
    ∧ index st' = rebuild_index (proxies st')
    ∧ msgpack st' = match msgpack st with
                    | Some _ => Some (proxies st')
                    | None => None
                    end.
Proof.
  intros Hl Hr. unfold feedback_proxy. rewrite Hl.
  destruct (Z.leb_spec (len st) last); [lia|].
  rewrite py_pos_in_range by exact Hr.
  destruct (lookup_in_range (proxies st) last Hr) as [p ->].
  cbv zeta. set (st1 := with_proxies _ st).
  assert (Hr1 : 0 ≤ last < len st1).
  { unfold len, st1; simpl. rewrite length_insert. exact Hr. }
  rewrite (rm_proxy_in_range last st1 Hr1). simpl.
  eexists. split; [reflexivity|].
  assert (Hd : delete (Z.to_nat last) (<[Z.to_nat last := record_failure p]> (proxies st))
               = delete (Z.to_nat last) (proxies st)) by apply delete_insert_same.
  unfold _write_data, after_rm, st1; simpl. rewrite Hl, Z.ltb_irrefl, Hd.
  destruct (msgpack st); simpl;
    (split; [reflexivity|]);
    (split; [unfold len; simpl; rewrite length_delete_in_range; unfold len in Hr; lia|]);
    (split; [intros j Hj; by apply list_lookup_delete_lt|]);
    (split; [intros j Hj; by apply list_lookup_delete_ge|]); auto.
Qed.

Lemma feedback_failure_removes_selected_witness :
  ∃ st', feedback_proxy false stored_pool = Return tt st'
    ∧ proxies st' = [pA; pC]
    ∧ msgpack st' = Some (proxies st').
Proof.
  destruct (feedback_failure_removes_selected stored_pool 1)
    as (st' & H1 & H2 & _ & _ & _ & _ & _ & H3);
    [reflexivity | unfold len; simpl; lia |].
  exists st'. auto.
Defined.

(** ** Removal and the remembered selection *)

(** X4. When [rm_proxy] removes an in-range position other than the
    remembered one, and the remembered position was in range, the
    remembered position is in range afterwards and holds the record it
    held before: the adjustment of line 148 follows the selected record. *)
Theorem rm_proxy_follows_selection (idx : Z) (st : DataManager) (last : Z) :
  0 ≤ idx < len st →
  last_proxy_index st = Some last →
  0 ≤ last < len st →
  idx ≠ last →
  ∃ st' last', rm_proxy idx st = Return tt st'
    ∧ last_proxy_index st' = Some last'
    ∧ 0 ≤ last' < len st'
    ∧ proxies st' !! Z.to_nat last' = proxies st !! Z.to_nat last.
Proof.
  intros Hr Hl Hlr Hne. rewrite (rm_proxy_in_range idx st Hr).
  assert (Hlen : len (after_rm idx st) = len st - 1).
  { unfold len, after_rm; simpl. rewrite length_delete_in_range; unfold len in Hr; lia. }
  eexists _, _. split; [reflexivity|].
  unfold after_rm at 1 3. simpl. rewrite Hl.
  split; [reflexivity|].
  destruct (Z.ltb_spec idx last).
  - split; [lia|]. rewrite list_lookup_delete_ge by lia.
    f_equal. lia.
  - split; [lia|]. apply list_lookup_delete_lt. lia.
Qed.

Lemma rm_proxy_follows_selection_witness :
  ∃ st' last', rm_proxy 0 stored_pool = Return tt st'
    ∧ last_proxy_index st' = Some last'
    ∧ 0 ≤ last' < len st'
    ∧ proxies st' !! Z.to_nat last' = proxies stored_pool !! Z.to_nat 1.
Proof.
  apply rm_proxy_follows_selection;
    [unfold len; simpl; lia | reflexivity | unfold len; simpl; lia | lia].
Defined.

(** X5. [force_rm_last_proxy] does nothing when no position is
    remembered. With an in-range remembered position it removes that
    position and keeps the number; a second call then removes the record
    that followed, or, when the first call removed the final position,
    raises [IndexError] ("Proxy does not exist") and changes nothing. *)
Theorem force_rm_last_proxy_twice (st : DataManager) :
  (last_proxy_index st = None → force_rm_last_proxy st = Return tt st)
  ∧ (∀ last, last_proxy_index st = Some last → 0 ≤ last < len st →
       ∃ st1, force_rm_last_proxy st = Return tt st1
         ∧ proxies st1 = delete (Z.to_nat last) (proxies st)
         ∧ last_proxy_index st1 = Some last
         ∧ (last = len st - 1 →
              force_rm_last_proxy st1 = Raise (IndexError "Proxy does not exist") st1)
         ∧ (last < len st - 1 →
              ∃ st2, force_rm_last_proxy st1 = Return tt st2
                ∧ proxies st2
                  = delete (Z.to_nat last) (delete (Z.to_nat last) (proxies st)))).
Proof.
  split; [intros H; unfold force_rm_last_proxy; by rewrite H|].
  intros last Hl Hr. unfold force_rm_last_proxy at 1. rewrite Hl.
  rewrite (rm_proxy_in_range last st Hr).
  assert (Hlen : len (after_rm last st) = len st - 1).
  { unfold len, after_rm; simpl. rewrite length_delete_in_range; unfold len in Hr; lia. }
  assert (Hl1 : last_proxy_index (after_rm last st) = Some last).
  { unfold after_rm; simpl. by rewrite Hl, Z.ltb_irrefl. }
  eexists. split; [reflexivity|]. split; [reflexivity|]. split; [exact Hl1|].
  unfold force_rm_last_proxy. rewrite Hl1. split.
  - intros He. apply rm_proxy_out_of_range. lia.
  - intros Hlt. eexists.
    split; [apply rm_proxy_in_range; lia | reflexivity].
Qed.

Lemma force_rm_last_proxy_twice_witness :
  ∃ st1, force_rm_last_proxy (with_last (Some 2) (init [pA; pB; pC])) = Return tt st1
    ∧ proxies st1 = [pA; pB]
    ∧ force_rm_last_proxy st1 = Raise (IndexError "Proxy does not exist") st1.
Proof.
  destruct (force_rm_last_proxy_twice (with_last (Some 2) (init [pA; pB; pC])))
    as [_ H].
  destruct (H 2) as (st1 & H1 & H2 & _ & H3 & _);
    [reflexivity | unfold len; simpl; lia |].
  exists st1. split; [exact H1|]. split; [exact H2|]. apply H3. reflexivity.
Defined.

(** ** Emptying the pool *)

(** X6. [rm_all_proxies] leaves an empty list and an empty index, writes
    the empty pool to the store file when there is one, and does not
    touch the remembered position. After it, [get_proxy] raises
    [NoProxyAvailable] whatever is asked, and a feedback, with the
    remembered position not negative, is a silent no-op. *)
Theorem rm_all_proxies_then_nothing_to_get (st : DataManager) :
  ∃ st', rm_all_proxies st = Return tt st'
    ∧ proxies st' = []
    ∧ index st' = index_clear
    ∧ msgpack st' = match msgpack st with Some _ => Some [] | None => None end
    ∧ last_proxy_index st' = last_proxy_index st
    ∧ (∀ return_type protocol_ country_ anonymity_
         exclude_protocol exclude_country exclude_anonymity rnd,
         ∃ msg,
           get_proxy return_type protocol_ country_ anonymity_
                     exclude_protocol exclude_country exclude_anonymity rnd st'
           = Raise (NoProxyAvailable msg) st')
    ∧ (last_ok st → ∀ success, feedback_proxy success st' = Return tt st').
Proof.
  eexists. split; [reflexivity|].
  set (st' := _write_data _).
  assert (Hp : proxies st' = []).
  { unfold st', _write_data; simpl. by destruct (msgpack st). }
  split; [exact Hp|].
  split; [unfold st', _write_data; simpl; by destruct (msgpack st)|].
  split.
  { unfold st', _write_data; simpl.
    destruct (msgpack st) eqn:E; simpl; [reflexivity | exact E]. }
  assert (Hl : last_proxy_index st' = last_proxy_index st).
  { unfold st', _write_data; simpl. by destruct (msgpack st). }
  split; [exact Hl|]. split.
  - intros. unfold get_proxy. destruct (not_enough st'); [eauto|].
    match goal with |- context [bool_decide (?V = ∅)] =>
      assert (HV : V = ∅) end.
    { apply leibniz_equiv, elem_of_equiv_empty. intros j Hj.
      apply filtered_indices_in_range in Hj as (p & _ & Hj).
      rewrite Hp in Hj. discriminate Hj. }
    rewrite (bool_decide_eq_true_2 _ HV). eauto.
  - intros Hok success. unfold feedback_proxy. rewrite Hl.
    unfold last_ok in Hok. destruct (last_proxy_index st) as [last|]; [|reflexivity].
    destruct (Z.leb_spec (len st') last) as [|Hlt]; [reflexivity|].
    unfold len in Hlt. rewrite Hp in Hlt. simpl in Hlt. lia.
Qed.

(** ** Deduplication *)

(** X7. A dedup pass is not idempotent: a second pass finds nothing to
    drop and turns the list round, so two passes give the result of one
    pass reversed, and three passes give the result of one. *)
Theorem rm_duplicate_proxies_twice (st : DataManager) :
  proxies (_rm_duplicate_proxies (_rm_duplicate_proxies st))
  = reverse (proxies (_rm_duplicate_proxies st))
  ∧ proxies (_rm_duplicate_proxies (_rm_duplicate_proxies (_rm_duplicate_proxies st)))
    = proxies (_rm_duplicate_proxies st).
Proof.
  assert (H : ∀ s, proxies (_rm_duplicate_proxies (_rm_duplicate_proxies s))
                   = reverse (proxies (_rm_duplicate_proxies s))).
  { intros s. unfold _rm_duplicate_proxies at 1. simpl.
    apply keep_unseen_all_new; [|set_solver].
    rewrite fmap_reverse, reverse_Permutation. apply keep_unseen_NoDup. }
  split; [apply H|].
  rewrite H, H. apply reverse_involutive.
Qed.

(** ** What an ingestion leaves in the pool *)

(** What [new_proxy] fills in besides the parsed url. *)
Lemma new_proxy_fresh (URL : string -> exn + ParsedURL)
    (c : gmap string string) (p : Proxy) :
  new_proxy URL c = inr p →
  times_failed p = 0 ∧ times_succeed p = 0 ∧ times_failed_in_row p = 0
  ∧ country p = default "unknown" (c !! "country")
  ∧ anonymity p = default "unknown" (c !! "anonymity").
Proof.
  unfold new_proxy. intros H.
  destruct (c !! "url") as [s|]; [|discriminate].
  destruct (URL s) as [e|u]; [discriminate|].
  injection H as <-. simpl. auto.
Qed.

Lemma build_new_proxies_fresh (URL : string -> exn + ParsedURL)
    (cs : list (gmap string string)) :
  ∀ news, build_new_proxies URL cs = inr news →
    Forall2 (fun c p =>
      times_failed p = 0 ∧ times_succeed p = 0 ∧ times_failed_in_row p = 0
      ∧ country p = default "unknown" (c !! "country")
      ∧ anonymity p = default "unknown" (c !! "anonymity")) cs news.
Proof.
  induction cs as [|c cs IH]; simpl; intros news H.
  - injection H as <-. constructor.
  - destruct (new_proxy URL c) as [e|p] eqn:Hp; [discriminate|].
    destruct (build_new_proxies URL cs) as [e|ps]; [discriminate|].
    injection H as <-. constructor; [by apply (new_proxy_fresh URL) | by apply IH].
Qed.

(** A record kept by the scan of [new] followed by [old], both from the
    end, whose url occurs in [new], is a record of [new]. *)
Lemma keep_unseen_prefers_new (old new : list Proxy) (p : Proxy) :
  p ∈ keep_unseen ∅ (reverse (old ++ new)) →
  url p ∈ (url <$> new) →
  p ∈ new.
Proof.
  intros Hp Hu.
  apply keep_unseen_first in Hp as (l1 & l2 & Heq & Hn & _).
  rewrite reverse_app in Heq. symmetry in Heq.
  apply app_eq_inv in Heq as [(k & -> & Hk) | (k & Hk & Hk2)].
  - exfalso. apply Hn. rewrite fmap_app, elem_of_app. left.
    by rewrite fmap_reverse, elem_of_reverse.
  - destruct k as [|q k]; simpl in Hk2.
    + exfalso. apply Hn. rewrite app_nil_r in Hk. rewrite <- Hk.
      by rewrite fmap_reverse, elem_of_reverse.
    + injection Hk2 as <- _. apply elem_of_reverse. rewrite Hk.
      apply elem_of_app. right. apply elem_of_cons. by left.
Qed.

(** X8. When every candidate of the batch has a url that parses,
    [add_proxy] returns. Each new record starts with its three counters
    at 0 and takes country and anonymity from its candidate, "unknown"
    when the candidate has none. A record of the resulting pool comes
    from the batch or from the old pool, and one whose url occurs in the
    batch comes from the batch: ingesting a url that the pool already
    holds replaces the old record, counters included. The urls of the
    resulting pool are those of the old pool and of the batch. *)
Theorem add_proxy_replaces_known_urls (URL : string -> exn + ParsedURL)
    (candidates : list (gmap string string)) (st : DataManager)
    (new_proxies : list Proxy) :
  build_new_proxies URL candidates = inr new_proxies →
  ∃ st', add_proxy URL candidates st = Return tt st'
    ∧ Forall2 (fun c p =>
        times_failed p = 0 ∧ times_succeed p = 0 ∧ times_failed_in_row p = 0
        ∧ country p = default "unknown" (c !! "country")
        ∧ anonymity p = default "unknown" (c !! "anonymity"))
        candidates new_proxies
    ∧ (∀ p, p ∈ proxies st' → p ∈ new_proxies ∨ p ∈ proxies st)
    ∧ (∀ p, p ∈ proxies st' → url p ∈ (url <$> new_proxies) → p ∈ new_proxies)
    ∧ (∀ u, u ∈ (url <$> proxies st')
            ↔ u ∈ (url <$> proxies st) ∨ u ∈ (url <$> new_proxies)).
Proof.
  intros Hb.
  destruct (add_proxy_outcome URL candidates st)
    as [(e & Hb' & _) | (news & st' & Hb' & Hret & Hp & _)]; [congruence|].
  assert (news = new_proxies) as -> by congruence.
  exists st'. split; [exact Hret|].
  split; [by apply (build_new_proxies_fresh URL)|].
  split.
  { intros p Hin. rewrite Hp in Hin.
    pose proof (elem_of_sublist _ _ p Hin (keep_unseen_sublist _ ∅)) as H.
    apply elem_of_reverse, elem_of_app in H. tauto. }
  split.
  { intros p Hin Hu. rewrite Hp in Hin. by apply (keep_unseen_prefers_new (proxies st)). }
  intros u. rewrite Hp, keep_unseen_urls, fmap_reverse, elem_of_reverse,
    fmap_app, elem_of_app. set_solver.
Qed.

Lemma add_proxy_replaces_known_urls_witness :
  ∃ st', add_proxy sample_URL [ {[ "url" := "https://10.0.0.2:443" ]} ] stored_pool
         = Return tt st'
    ∧ ∀ p, p ∈ proxies st' → url p ∈ (url <$> [pB_new]) → p ∈ [pB_new].
Proof.
  destruct (add_proxy_replaces_known_urls sample_URL
              [ {[ "url" := "https://10.0.0.2:443" ]} ] stored_pool [pB_new])
    as (st' & H1 & _ & _ & H2 & _); [vm_compute; reflexivity|].
  exists st'. split; [exact H1 | exact H2].
Defined.

(** X9. An ingestion that returns lets the pool grow by at most the size
    of the batch, and by exactly that size when no url occurs twice among
    the old pool and the batch; so a batch of k distinct urls put into an
    empty pool leaves k records. *)
Theorem add_proxy_pool_size (URL : string -> exn + ParsedURL)
    (candidates : list (gmap string string)) (st : DataManager)
    (new_proxies : list Proxy) :
  build_new_proxies URL candidates = inr new_proxies →
  let st' := state_of (add_proxy URL candidates st) in
  len st' ≤ len st + Z.of_nat (length candidates)
  ∧ (NoDup (url <$> proxies st ++ new_proxies) →
       len st' = len st + Z.of_nat (length candidates)).
Proof.
  intros Hb st'. subst st'.
  destruct (add_proxy_outcome URL candidates st)
    as [(e & Hb' & _) | (news & st' & Hb' & -> & Hp & _)]; [congruence|].
  assert (news = new_proxies) as -> by congruence. simpl.
  pose proof (Forall2_length _ _ _ (build_new_proxies_built_from URL _ _ Hb)) as Hlen.
  unfold len. rewrite Hp. split.
  - pose proof (sublist_length _ _ (keep_unseen_sublist
        (reverse (proxies st ++ new_proxies)) ∅)) as H.
    rewrite length_reverse, length_app in H. lia.
  - intros Hnd. rewrite keep_unseen_all_new; [|by rewrite fmap_reverse, reverse_Permutation|set_solver].
    rewrite length_reverse, length_app. lia.
Qed.

Lemma add_proxy_pool_size_witness :
  len (state_of (add_proxy sample_URL
         [ {[ "url" := "http://10.0.0.1:80" ]}; {[ "url" := "socks5://10.0.0.9:1080" ]} ]
         (init [])))
  = len (init []) + Z.of_nat 2.
Proof.
  destruct (add_proxy_pool_size sample_URL
              [ {[ "url" := "http://10.0.0.1:80" ]}; {[ "url" := "socks5://10.0.0.9:1080" ]} ]
              (init [])
              [ mkProxy "http://10.0.0.1:80" "http" "unknown" "unknown" 0 0 0;
                mkProxy "socks5://10.0.0.9:1080" "socks5" "unknown" "unknown" 0 0 0 ])
    as [_ H]; [vm_compute; reflexivity|].
  apply H. apply (bool_decide_unpack _). vm_compute. exact I.
Defined.

(** ** More on selection *)

Lemma getitem_known_key (p : Proxy) (key : string) :
  key ∈ proxy_keys → is_Some (getitem p key).
Proof.
  unfold proxy_keys. rewrite !elem_of_cons, elem_of_nil.
  intros [->|[->|[->|[->|[->|[->|[->|[]]]]]]]]; simpl; eauto.
Qed.

Lemma getitem_unknown_key (p : Proxy) (key : string) :
  key ∉ proxy_keys → getitem p key = None.
Proof.
  intros H. unfold getitem.
  repeat match goal with
  | |- context [String.eqb key ?k] =>
      destruct (String.eqb_spec key k) as [->|_];
        [exfalso; apply H; unfold proxy_keys; set_solver|]
  end.
  reflexivity.
Qed.

(** X10. Whatever is asked and however the call ends, [get_proxy] leaves
    the pool, the index, the store file and the thresholds as they were;
    the remembered position is the only thing it may change, and when it
    does, the new position is a valid position of the pool. *)
Theorem get_proxy_only_moves_selection (return_type : string)
    (protocol_ country_ anonymity_ exclude_protocol exclude_country exclude_anonymity : str_arg)
    (rnd : nat) (st : DataManager) :
  let st' := state_of (get_proxy return_type protocol_ country_ anonymity_
                         exclude_protocol exclude_country exclude_anonymity rnd st) in
  proxies st' = proxies st
  ∧ index st' = index st
  ∧ msgpack st' = msgpack st
  ∧ allowed_fails_in_row st' = allowed_fails_in_row st
  ∧ fails_without_check st' = fails_without_check st
  ∧ percent_failed_to_remove st' = percent_failed_to_remove st
  ∧ min_proxies st' = min_proxies st
  ∧ (last_proxy_index st' = last_proxy_index st
     ∨ ∃ sel, last_proxy_index st' = Some sel
         ∧ 0 ≤ sel < len st
         ∧ sel ∈ filtered_indices protocol_ country_ anonymity_
                   exclude_protocol exclude_country exclude_anonymity st).
Proof.
  intros st'. subst st'.
  destruct (not_enough st) eqn:Hmin.
  { unfold get_proxy. rewrite Hmin. simpl. tauto. }
  destruct (decide (filtered_indices protocol_ country_ anonymity_
              exclude_protocol exclude_country exclude_anonymity st = ∅)) as [HV|HV].
  { unfold get_proxy. rewrite Hmin, (bool_decide_eq_true_2 _ HV). simpl. tauto. }
  destruct (get_proxy_selects return_type protocol_ country_ anonymity_
              exclude_protocol exclude_country exclude_anonymity rnd st Hmin HV)
    as (sel & p & Hsel & [H0 Hp] & ->).
  apply avoid_last_subseteq in Hsel. apply lookup_lt_Some in Hp.
  assert (Hs : 0 ≤ sel < len st) by (unfold len; lia).
  destruct (getitem p return_type); simpl; repeat (split; [reflexivity|]);
    right; exists sel; auto.
Qed.

(** X11. With the index rebuilt from the pool, a pool that is not below
    its minimum and a [return_type] that is a key of a pool entry,
    [get_proxy] returns as soon as some record of the pool satisfies the
    filters, whatever the draw. *)
Theorem get_proxy_returns_when_matched (return_type : string)
    (protocol_ country_ anonymity_ exclude_protocol exclude_country exclude_anonymity : str_arg)
    (rnd : nat) (st : DataManager) :
  index st = rebuild_index (proxies st) →
  not_enough st = false →
  return_type ∈ proxy_keys →
  Exists (fun p => matches protocol_ country_ anonymity_
                     exclude_protocol exclude_country exclude_anonymity p = true)
         (proxies st) →
  ∃ v st',
    get_proxy return_type protocol_ country_ anonymity_
              exclude_protocol exclude_country exclude_anonymity rnd st
    = Return v st'.
Proof.
  intros Hidx Hmin Hkey Hex.
  apply Exists_exists in Hex as (p & Hin & Hm).
  apply list_elem_of_lookup in Hin as (n & Hn).
  assert (Hp : at_pos (proxies st) (Z.of_nat n) p).
  { split; [lia|]. by rewrite Nat2Z.id. }
  assert (HV : filtered_indices protocol_ country_ anonymity_
                 exclude_protocol exclude_country exclude_anonymity st ≠ ∅).
  { intros HV.
    apply (elem_of_filtered_indices protocol_ country_ anonymity_
             exclude_protocol exclude_country exclude_anonymity st _ p Hidx Hp) in Hm.
    rewrite HV in Hm. by apply not_elem_of_empty in Hm. }
  destruct (get_proxy_selects return_type protocol_ country_ anonymity_
              exclude_protocol exclude_country exclude_anonymity rnd st Hmin HV)
    as (sel & q & _ & _ & ->).
  destruct (getitem_known_key q return_type Hkey) as [v ->]. eauto.
Qed.

Lemma get_proxy_returns_when_matched_witness :
  ∃ v st',
    get_proxy "country" ArgNone (ArgList ["DE"; "FR"]) ArgNone ArgNone ArgNone ArgNone 7
              stored_pool
    = Return v st'.
Proof.
  apply get_proxy_returns_when_matched.
  - reflexivity.
  - reflexivity.
  - apply (bool_decide_unpack _). vm_compute. exact I.
  - apply (bool_decide_unpack _). vm_compute. exact I.
Defined.

(** X12. A [return_type] that is no key of a pool entry makes [get_proxy]
    raise [KeyError] when some position is valid and the pool is not below
    its minimum; the remembered position has been moved to a valid position
    by then. *)
Theorem get_proxy_unknown_return_type (return_type : string)
    (protocol_ country_ anonymity_ exclude_protocol exclude_country exclude_anonymity : str_arg)
    (rnd : nat) (st : DataManager) :
  return_type ∉ proxy_keys →
  not_enough st = false →
  filtered_indices protocol_ country_ anonymity_
    exclude_protocol exclude_country exclude_anonymity st ≠ ∅ →
  ∃ sel,
    sel ∈ filtered_indices protocol_ country_ anonymity_
            exclude_protocol exclude_country exclude_anonymity st
    ∧ get_proxy return_type protocol_ country_ anonymity_
                exclude_protocol exclude_country exclude_anonymity rnd st
      = Raise (KeyError return_type) (with_last (Some sel) st).
Proof.
  intros Hkey Hmin HV.
  destruct (get_proxy_selects return_type protocol_ country_ anonymity_
              exclude_protocol exclude_country exclude_anonymity rnd st Hmin HV)
    as (sel & p & Hsel & _ & ->).
  exists sel. split; [by apply (avoid_last_subseteq (last_proxy_index st))|].
  by rewrite (getitem_unknown_key p return_type Hkey).
Qed.

Lemma get_proxy_unknown_return_type_witness :
  ∃ sel,
    sel ∈ filtered_indices ArgNone ArgNone ArgNone ArgNone ArgNone ArgNone (init [pA])
    ∧ get_proxy "port" ArgNone ArgNone ArgNone ArgNone ArgNone ArgNone 0 (init [pA])
      = Raise (KeyError "port") (with_last (Some sel) (init [pA])).
Proof.
  apply get_proxy_unknown_return_type.
  - apply (bool_decide_unpack _). vm_compute. exact I.
  - reflexivity.
  - apply (bool_decide_unpack _). vm_compute. exact I.
Defined.

(** X13. When exactly one position is valid, [get_proxy] selects it
    whatever the draw, also when it is the position remembered from the
    last call: the same proxy is handed out again when it is the only
    option. *)
Theorem get_proxy_single_candidate (return_type : string)
    (protocol_ country_ anonymity_ exclude_protocol exclude_country exclude_anonymity : str_arg)
    (rnd : nat) (st : DataManager) (only : Z) :
  not_enough st = false →
  filtered_indices protocol_ country_ anonymity_
    exclude_protocol exclude_country exclude_anonymity st = {[ only ]} →
  ∃ p, at_pos (proxies st) only p
    ∧ get_proxy return_type protocol_ country_ anonymity_
                exclude_protocol exclude_country exclude_anonymity rnd st
      = match getitem p return_type with
        | Some chosen_proxy => Return chosen_proxy (with_last (Some only) st)
        | None => Raise (KeyError return_type) (with_last (Some only) st)
        end.
Proof.
  intros Hmin HV.
  assert (Hne : filtered_indices protocol_ country_ anonymity_
                  exclude_protocol exclude_country exclude_anonymity st ≠ ∅).
  { rewrite HV. intros H. assert (only ∈ (∅ : gset Z)) by (rewrite <- H; set_solver).
    set_solver. }
  destruct (get_proxy_selects return_type protocol_ country_ anonymity_
              exclude_protocol exclude_country exclude_anonymity rnd st Hmin Hne)
    as (sel & p & Hsel & Hp & ->).
  apply avoid_last_subseteq in Hsel. rewrite HV in Hsel.
  apply elem_of_singleton in Hsel as ->. eauto.
Qed.

Lemma get_proxy_single_candidate_witness :
  ∃ p, at_pos (proxies stored_pool) 1 p
    ∧ get_proxy "url" (ArgStr "https") ArgNone ArgNone ArgNone ArgNone ArgNone 3 stored_pool
      = match getitem p "url" with
        | Some chosen_proxy => Return chosen_proxy (with_last (Some 1) stored_pool)
        | None => Raise (KeyError "url") (with_last (Some 1) stored_pool)
        end.
Proof.
  apply get_proxy_single_candidate; [reflexivity | by vm_compute].
Defined.

(** X14. A feedback that follows a [get_proxy] call that returned acts on
    the record whose field was returned: a success is credited to that
    record, a failure takes that record out of the pool. *)
Theorem feedback_after_get_proxy (return_type : string)
    (protocol_ country_ anonymity_ exclude_protocol exclude_country exclude_anonymity : str_arg)
    (rnd : nat) (st : DataManager) (v : value) (st1 : DataManager) :
  get_proxy return_type protocol_ country_ anonymity_
            exclude_protocol exclude_country exclude_anonymity rnd st
  = Return v st1 →
  ∃ sel p, at_pos (proxies st) sel p
    ∧ getitem p return_type = Some v
    ∧ (∃ st2, feedback_proxy true st1 = Return tt st2
         ∧ proxies st2 = <[Z.to_nat sel := record_success p]> (proxies st))
    ∧ (∃ st2, feedback_proxy false st1 = Return tt st2
         ∧ proxies st2 = delete (Z.to_nat sel) (proxies st)).
Proof.
  intros Hret.
  destruct (get_proxy_returned _ _ _ _ _ _ _ _ _ _ _ Hret) as [Hmin HV].
  destruct (get_proxy_selects return_type protocol_ country_ anonymity_
              exclude_protocol exclude_country exclude_anonymity rnd st Hmin HV)
    as (sel & p & _ & Hp & Hget).
  rewrite Hget in Hret.
  destruct (getitem p return_type) as [v'|] eqn:Hv; [|discriminate].
  injection Hret as <- <-.
  exists sel, p. split; [exact Hp|]. split; [exact Hv|].
  destruct Hp as [H0 Hp]. pose proof (lookup_lt_Some _ _ _ Hp) as Hlt.
  assert (Hr : 0 ≤ sel < len (with_last (Some sel) st)) by (unfold len; simpl; lia).
  split.
  - destruct (feedback_success_in_range (with_last (Some sel) st) sel eq_refl Hr)
      as (q & st2 & Hq & -> & Hp2 & _).
    simpl in Hq. assert (q = p) as -> by congruence. eauto.
  - destruct (feedback_failure_in_range (with_last (Some sel) st) sel eq_refl Hr)
      as (st2 & -> & Hp2 & _). eauto.
Qed.

Lemma feedback_after_get_proxy_witness :
  ∃ sel p, at_pos (proxies (init [pA; pB; pC])) sel p
    ∧ getitem p "url" = Some (VStr "https://10.0.0.2:443")
    ∧ (∃ st2, feedback_proxy true (with_last (Some 1) (init [pA; pB; pC])) = Return tt st2
         ∧ proxies st2 = <[Z.to_nat sel := record_success p]> (proxies (init [pA; pB; pC])))
    ∧ (∃ st2, feedback_proxy false (with_last (Some 1) (init [pA; pB; pC])) = Return tt st2
         ∧ proxies st2 = delete (Z.to_nat sel) (proxies (init [pA; pB; pC]))).
Proof.
  apply (feedback_after_get_proxy "url" (ArgStr "https") ArgNone ArgNone
           ArgNone ArgNone ArgNone 0 (init [pA; pB; pC])).
  vm_compute. reflexivity.
Defined.

(** ** What every method keeps *)

Lemma pool_ok_update_data (remove_duplicates : bool) (st : DataManager) :
  pool_ok st → pool_ok (update_data remove_duplicates st).
Proof.
  intros Hok. unfold update_data. apply pool_ok_write_data.
  destruct remove_duplicates; [|exact Hok].
  split; simpl; [reflexivity | apply keep_unseen_NoDup].
Qed.

(** X15. Every public method keeps the pool well formed: if the index is
    the one rebuilt from the list and no url stands twice in the list
    before a call, the same holds after it, whether the call returned or
    raised. *)
Theorem step_keeps_pool_ok (URL : string -> exn + ParsedURL) (st st' : DataManager) :
  step URL st st' → pool_ok st → pool_ok st'.
Proof.
  intros Hstep Hok. destruct Hstep.
  - by apply pool_ok_add_proxy.
  - by apply pool_ok_rm_proxy.
  - apply pool_ok_rm_all_proxies.
  - by apply pool_ok_force_rm_last_proxy.
  - by apply pool_ok_feedback_proxy.
  - by apply pool_ok_update_data.
  - by apply pool_ok_get_proxy.
Qed.

Lemma step_keeps_pool_ok_witness :
  pool_ok (state_of (feedback_proxy false stored_pool)).
Proof.
  apply (step_keeps_pool_ok sample_URL stored_pool); [constructor|].
  split; [reflexivity|]. apply (bool_decide_unpack _). vm_compute. exact I.
Defined.

(** The state that [get_proxy] leaves. *)
Lemma get_proxy_state (return_type : string)
    (protocol_ country_ anonymity_ exclude_protocol exclude_country exclude_anonymity : str_arg)
    (rnd : nat) (st : DataManager) :
  let st' := state_of (get_proxy return_type protocol_ country_ anonymity_
                         exclude_protocol exclude_country exclude_anonymity rnd st) in
  st' = st ∨ ∃ sel, 0 ≤ sel < len st ∧ st' = with_last (Some sel) st.
Proof.
  intros st'. subst st'.
  destruct (not_enough st) eqn:Hmin.
  { unfold get_proxy. rewrite Hmin. by left. }
  destruct (decide (filtered_indices protocol_ country_ anonymity_
              exclude_protocol exclude_country exclude_anonymity st = ∅)) as [HV|HV].
  { unfold get_proxy. rewrite Hmin, (bool_decide_eq_true_2 _ HV). by left. }
  destruct (get_proxy_selects return_type protocol_ country_ anonymity_
              exclude_protocol exclude_country exclude_anonymity rnd st Hmin HV)
    as (sel & p & _ & [H0 Hp] & ->).
  apply lookup_lt_Some in Hp. right. exists sel.
  split; [unfold len; lia|]. by destruct (getitem p return_type).
Qed.

Lemma last_ok_rm_proxy (idx : Z) (st : DataManager) :
  last_ok st → last_ok (state_of (rm_proxy idx st)).
Proof.
  intros Hok. destruct (decide (0 ≤ idx < len st)) as [Hr|Hr].
  - rewrite (rm_proxy_in_range idx st Hr). unfold last_ok in *. simpl.
    destruct (last_proxy_index st) as [last|]; [|exact I].
    destruct (Z.ltb_spec idx last); simpl; lia.
  - by rewrite (rm_proxy_out_of_range idx st Hr).
Qed.

Lemma last_ok_write_data (st : DataManager) : last_ok st → last_ok (_write_data st).
Proof. unfold _write_data. by destruct (msgpack st). Qed.

Lemma last_ok_feedback_proxy (success : bool) (st : DataManager) :
  last_ok st → last_ok (state_of (feedback_proxy success st)).
Proof.
  intros Hok. unfold feedback_proxy.
  destruct (last_proxy_index st) as [last|] eqn:Hl; [|exact Hok].
  destruct (len st <=? last); [exact Hok|].
  destruct (py_pos (proxies st) last) as [n|]; [|exact Hok].
  destruct (proxies st !! n) as [p|]; [|exact Hok].
  destruct success; simpl.
  - apply last_ok_write_data. unfold last_ok in *. simpl. by rewrite Hl in *.
  - set (st1 := with_proxies _ st).
    assert (Hok1 : last_ok st1) by (unfold last_ok in *; simpl; by rewrite Hl in * ).
    pose proof (last_ok_rm_proxy last st1 Hok1) as H.
    destruct (rm_proxy last st1); simpl in *; [by apply last_ok_write_data | exact H].
Qed.

(** X16. No public method makes the remembered position negative: when
    it is absent or not negative before a call, it is so after it. *)
Theorem step_keeps_last_ok (URL : string -> exn + ParsedURL) (st st' : DataManager) :
  step URL st st' → last_ok st → last_ok st'.
Proof.
  intros Hstep Hok. destruct Hstep.
  - destruct (add_proxy_outcome URL candidates st)
      as [(e & _ & ->) | (news & st1 & _ & -> & _ & Hl & _)]; [exact Hok|].
    unfold last_ok in *. simpl. by rewrite Hl.
  - by apply last_ok_rm_proxy.
  - simpl. by apply last_ok_write_data.
  - unfold force_rm_last_proxy.
    destruct (last_proxy_index st); [by apply last_ok_rm_proxy | exact Hok].
  - by apply last_ok_feedback_proxy.
  - unfold update_data. apply last_ok_write_data. by destruct remove_duplicates.
  - destruct (get_proxy_state return_type protocol_ country_ anonymity_
                exclude_protocol exclude_country exclude_anonymity rnd st)
      as [-> | (sel & Hs & ->)]; [exact Hok|].
    unfold last_ok. simpl. lia.
Qed.

Lemma step_keeps_last_ok_witness :
  last_ok (state_of (rm_proxy 0 stored_pool)).
Proof.
  apply (step_keeps_last_ok sample_URL stored_pool); [constructor|].
  unfold last_ok; simpl; lia.
Defined.

Lemma store_synced_write_data (st : DataManager) : store_synced (_write_data st).
Proof.
  unfold _write_data, store_synced.
  destruct (msgpack st) eqn:Hm; simpl; [reflexivity | by rewrite Hm].
Qed.

Lemma store_synced_rm_proxy (idx : Z) (st : DataManager) :
  store_synced st → store_synced (state_of (rm_proxy idx st)).
Proof.
  intros Hok. destruct (decide (0 ≤ idx < len st)) as [Hr|Hr].
  - rewrite (rm_proxy_in_range idx st Hr). unfold store_synced. simpl.
    by destruct (msgpack st).
  - by rewrite (rm_proxy_out_of_range idx st Hr).
Qed.

(** X17. The store file follows the pool: when the remembered position is
    not negative and the store file, if there is one, holds the pool
    before a call of a public method, it holds the pool after the call,
    whether the call returned or raised. *)
Theorem step_keeps_store_synced (URL : string -> exn + ParsedURL) (st st' : DataManager) :
  step URL st st' → last_ok st → store_synced st → store_synced st'.
Proof.
  intros Hstep Hlast Hok. destruct Hstep.
  - unfold add_proxy. destruct (build_new_proxies URL candidates); [exact Hok|].
    simpl. apply store_synced_write_data.
  - by apply store_synced_rm_proxy.
  - simpl. apply store_synced_write_data.
  - unfold force_rm_last_proxy.
    destruct (last_proxy_index st); [by apply store_synced_rm_proxy | exact Hok].
  - unfold feedback_proxy. unfold last_ok in Hlast.
    destruct (last_proxy_index st) as [last|] eqn:Hl; [|exact Hok].
    destruct (Z.leb_spec (len st) last) as [|Hlt]; [exact Hok|].
    rewrite py_pos_in_range by (unfold len in Hlt; lia).
    destruct (lookup_in_range (proxies st) last (conj Hlast Hlt)) as [p ->].
    destruct success; simpl; [apply store_synced_write_data|].
    set (st1 := with_proxies _ st).
    assert (Hr1 : 0 ≤ last < len st1).
    { unfold len, st1; simpl. rewrite length_insert. unfold len in Hlt. lia. }
    rewrite (rm_proxy_in_range last st1 Hr1). simpl. apply store_synced_write_data.
  - apply store_synced_write_data.
  - destruct (get_proxy_state return_type protocol_ country_ anonymity_
                exclude_protocol exclude_country exclude_anonymity rnd st)
      as [-> | (sel & Hs & ->)]; exact Hok.
Qed.

Lemma step_keeps_store_synced_witness :
  store_synced (state_of (feedback_proxy true stored_pool)).
Proof.
  apply (step_keeps_store_synced sample_URL stored_pool);
    [constructor | unfold last_ok; simpl; lia | reflexivity].
Defined.

(** X18. Deduplication makes the pool well formed whatever it was:
    after [update_data] with [remove_duplicates], and after an
    [add_proxy] that returned, the index is the one rebuilt from the list
    and no url stands twice in it, also when the pool it started from
    held a url twice. *)
Theorem dedup_establishes_pool_ok (URL : string -> exn + ParsedURL)
    (candidates : list (gmap string string)) (st : DataManager) :
  pool_ok (update_data true st)
  ∧ (∀ st', add_proxy URL candidates st = Return tt st' → pool_ok st').
Proof.
  split.
  - unfold update_data. apply pool_ok_write_data.
    split; simpl; [reflexivity | apply keep_unseen_NoDup].
  - intros st' Hret.
    destruct (add_proxy_outcome URL candidates st)
      as [(e & _ & Hr) | (news & st1 & _ & Hr & Hp & _ & Hi)]; [congruence|].
    assert (st1 = st') as -> by congruence.
    split; [exact Hi|]. rewrite Hp. apply keep_unseen_NoDup.
Qed.

Lemma dedup_establishes_pool_ok_witness :
  pool_ok (init [mkProxy "http://10.0.0.1:80" "http" "unknown" "unknown" 0 0 0; pB]).
Proof.
  destruct (dedup_establishes_pool_ok sample_URL
              [ {[ "url" := "http://10.0.0.1:80" ]} ] (init [pB; pA; pA])) as [_ H].
  apply H. vm_compute. reflexivity.
Defined.

(** ** A negative remembered position *)

(** X19. [last_proxy_index] is an attribute that a caller can assign. With
    a negative value that Python still accepts as a subscript, the guard
    of [feedback_proxy] lets the call through and the record counted
    from the end is updated: a success is credited to it and written; a
    failure increments its counters, then [rm_proxy] refuses the
    position with [IndexError], and the store file is not written. *)
Theorem feedback_proxy_negative_position (st : DataManager) (last : Z) (p : Proxy) :
  last_proxy_index st = Some last →
  - len st ≤ last < 0 →
  proxies st !! Z.to_nat (len st + last) = Some p →
  feedback_proxy true st
    = Return tt (_write_data
        (with_proxies (<[Z.to_nat (len st + last) := record_success p]> (proxies st)) st))
  ∧ feedback_proxy false st
    = Raise (IndexError "Proxy does not exist")
        (with_proxies (<[Z.to_nat (len st + last) := record_failure p]> (proxies st)) st).
Proof.
  intros Hl Hr Hp. unfold feedback_proxy. rewrite Hl.
  destruct (Z.leb_spec (len st) last); [lia|].
  assert (Hpos : py_pos (proxies st) last = Some (Z.to_nat (len st + last))).
  { unfold py_pos. fold (len st).
    destruct (Z.leb_spec 0 last); [lia|]. simpl.
    destruct (Z.leb_spec (- len st) last); [|lia].
    destruct (Z.ltb_spec last 0); [reflexivity | lia]. }
  rewrite Hpos, Hp. split; [reflexivity|].
  cbv zeta. rewrite rm_proxy_out_of_range; [reflexivity|]. lia.
Qed.

Lemma feedback_proxy_negative_position_witness :
  feedback_proxy false (with_last (Some (-1)) stored_pool)
  = Raise (IndexError "Proxy does not exist")
      (with_proxies [pA; pB; record_failure pC] (with_last (Some (-1)) stored_pool)).
Proof.
  destruct (feedback_proxy_negative_position (with_last (Some (-1)) stored_pool) (-1) pC)
    as [_ H]; [reflexivity | unfold len; simpl; lia | reflexivity |].
  exact H.
Defined.
